(** * gallery.js: category buttons, image fetch, filter and sort

    A shallow embedding of [src/web/static/js/gallery.js].  The page script
    works on one shared view state ([state]), on two DOM elements, on the
    console and on the network; all of these are fields of an explicit
    [World] that every function takes and returns.

    Platform functions the script calls are modelled from their ECMAScript /
    WHATWG definitions:
    - [String.prototype.split] with a one-character separator ([split]);
    - [Set] with insertion order ([Set_add], [Array_from]);
    - [Array.prototype.sort], which the language fixes only up to "a stable
      sort by the comparator" ([Array_sort], an insertion sort);
    - [String.prototype.localeCompare], whose collation depends on the host
      locale: it is a parameter of everything that sorts;
    - [fetch] and [Response.json], given as an oracle for the network;
    - the HTML tokenizer that reads what is assigned to [innerHTML]
      ([Html.button_tags]).

    The numbers [size] and [modified] of an image record are integers here
    (a byte count and a timestamp); the comparators only use the sign of
    their difference. *)

From Stdlib Require Import ZArith Ascii String Sorted.
From stdpp Require Import base decidable list sets gmap strings.

#[local] Set Warnings "-clear-no-such-hyp".

Local Open Scope string_scope.
Local Open Scope list_scope.
Local Open Scope Z_scope.

(** ** JavaScript values that reach the functions as arguments *)

(** [loadImages(category)] and [applyFiltersAndSort(sortCriteria)] take an
    optional string: the argument is absent ([undefined]), [null] or a
    string. *)
Inductive jsval : Type :=
  | Undefined
  | Null
  | Str (s : string).

(** ToBoolean: [undefined], [null] and the empty string are falsy. *)
Definition truthy (v : jsval) : bool :=
  match v with
  | Undefined | Null => false
  | Str s => negb (String.eqb s "")
  end.

(** ToString, as a template literal applies it. *)
Definition ToString (v : jsval) : string :=
  match v with
  | Undefined => "undefined"
  | Null => "null"
  | Str s => s
  end.

(** [v === s] for a string literal [s]. *)
Definition strict_equals (v : jsval) (s : string) : bool :=
  match v with
  | Str s' => String.eqb s' s
  | _ => false
  end.

(** A default parameter value replaces [undefined] only. *)
Definition default_param (d v : jsval) : jsval :=
  match v with
  | Undefined => d
  | _ => v
  end.

(** ** Data model *)

Module FileInfo.
Record t : Type := Build {
  path : string;
  name : string;
  size : Z;
  modified : Z
}.
End FileInfo.

Record ImageRecord : Type := {
  file_info : FileInfo.t
}.

Record State : Type := {
  allImages : list ImageRecord;
  filteredImages : list ImageRecord;
  activeFilters : gset string
}.

(** The two elements the script looks up; [None] is an element that is not
    in the document ([getElementById] returns [null]). *)
Record Dom : Type := {
  sort_select : option string;        (* #sort-select, its [value] *)
  category_filters : option string    (* #category-filters, its [innerHTML] *)
}.

Inductive JsError : Type :=
  | TypeError
  | SyntaxError.

(** The parsed body of a response. *)
Unset Elimination Schemes.
Inductive json : Type :=
  | JNull
  | JBool (b : bool)
  | JNumber (z : Z)
  | JString (s : string)
  | JArray (l : list json)
  | JObject (l : list (string * json)).
Set Elimination Schemes.

Record World : Type := {
  state : State;
  dom : Dom;
  console : list (string * JsError);      (* console.error calls, oldest first *)
  displayed : list (list ImageRecord);    (* displayImages calls, oldest first *)
  requests : list string                  (* URLs given to fetch, oldest first *)
}.

Definition set_filteredImages (l : list ImageRecord) (w : World) : World :=
  {| state := {| allImages := allImages (state w);
                 filteredImages := l;
                 activeFilters := activeFilters (state w) |};
     dom := dom w; console := console w;
     displayed := displayed w; requests := requests w |}.

Definition set_category_filters_innerHTML (html : string) (w : World) : World :=
  {| state := state w;
     dom := {| sort_select := sort_select (dom w);
               category_filters := Some html |};
     console := console w; displayed := displayed w; requests := requests w |}.

Definition console_error (msg : string) (e : JsError) (w : World) : World :=
  {| state := state w; dom := dom w;
     console := console w ++ [(msg, e)];
     displayed := displayed w; requests := requests w |}.

(** [displayImages] is defined elsewhere on the page; a call is recorded. *)
Definition displayImages (l : list ImageRecord) (w : World) : World :=
  {| state := state w; dom := dom w; console := console w;
     displayed := displayed w ++ [l]; requests := requests w |}.

Definition record_request (url : string) (w : World) : World :=
  {| state := state w; dom := dom w; console := console w;
     displayed := displayed w; requests := requests w ++ [url] |}.

(** ** Platform functions *)

(** [s.split(sep)] for a separator of one character. *)
Fixpoint split (sep : ascii) (s : string) : list string :=
  match s with
  | EmptyString => [EmptyString]
  | String c s' =>
      if Ascii.eqb c sep then EmptyString :: split sep s'
      else match split sep s' with
           | seg :: segs => String c seg :: segs
           | [] => [String c EmptyString]
           end
  end.

(** [s.includes(c)] for one character. *)
Fixpoint includes (c : ascii) (s : string) : bool :=
  match s with
  | EmptyString => false
  | String c' s' => Ascii.eqb c' c || includes c s'
  end.

(** [image.file_info.path.split('/')[0]], the expression both
    [loadCategories] and the filter of [applyFiltersAndSort] evaluate.
    [split] never returns an empty array ([split_not_nil]), so index 0 is
    always there. *)
Definition category_of (image : ImageRecord) : string :=
  match split "/" (FileInfo.path (file_info image)) with
  | category :: _ => category
  | [] => EmptyString
  end.

(** [Set.prototype.add] on a set kept in insertion order. *)
Definition Set_add (x : string) (s : list string) : list string :=
  if decide (x ∈ s) then s else s ++ [x].

(** [Array.from(set)]: the elements in insertion order. *)
Definition Array_from (s : list string) : list string := s.

(** [arr.join('')]. *)
Definition join_empty (l : list string) : string :=
  foldr String.append EmptyString l.

Section ArraySort.
Context {A : Type}.
Variable comparefn : A → A → Z.

(** [x] goes in front of the first element it does not compare greater
    than, so it stays in front of the elements it compares equal to. *)
Fixpoint sort_insert (x : A) (l : list A) : list A :=
  match l with
  | [] => [x]
  | y :: l' =>
      if comparefn x y <=? 0 then x :: y :: l'
      else y :: sort_insert x l'
  end.

(** [arr.sort(comparefn)]: a stable sort. *)
Definition Array_sort (l : list A) : list A :=
  foldr sort_insert [] l.
End ArraySort.

(** ** The functions of gallery.js *)

Definition nl : string := String (ascii_of_nat 10) EmptyString.
Definition dq : string := String (ascii_of_nat 34) EmptyString.

(** The template literal of [loadCategories], one button. *)
Definition button (category : string) : string :=
  nl +:+ "            <button" +:+
  nl +:+ "                class=" +:+ dq +:+
    "px-4 py-2 rounded-lg bg-gray-200 hover:bg-gray-300 transition-all" +:+ dq +:+
  nl +:+ "                onclick=" +:+ dq +:+
    "toggleFilter('" +:+ category +:+ "')" +:+ dq +:+
  nl +:+ "                data-category=" +:+ dq +:+ category +:+ dq +:+ ">" +:+
  nl +:+ "                " +:+ category +:+
  nl +:+ "            </button>" +:+
  nl +:+ "        ".

(** The [forEach] of [loadCategories]: the set of categories it builds. *)
Definition derive_categories (images : list ImageRecord) : list string :=
  foldl (λ categories image, Set_add (category_of image) categories) [] images.

(** [loadCategories()].  With records of the data model the traversal cannot
    throw; the [try] catches the TypeError of a missing container. *)
Definition loadCategories (w : World) : World :=
  let categories := derive_categories (allImages (state w)) in
  match category_filters (dom w) with
  | Some _ =>
      set_category_filters_innerHTML
        (join_empty (button <$> Array_from categories)) w
  | None => console_error "Error loading categories:" TypeError w
  end.

(** What the network does with a request. [fetch] rejects only when no
    response arrives; [response.json()] rejects when the body is not JSON. *)
Record Response : Type := {
  status : Z;
  body_json : option json
}.

Inductive FetchOutcome : Type :=
  | NetworkFailure
  | Responded (r : Response).

(** The [url] constant of [loadImages]. *)
Definition request_url (category : jsval) : string :=
  let category := default_param Null category in
  if truthy category then "/api/images?category=" +:+ ToString category
  else "/api/images".

(** [loadImages(category)]; the result [None] is [undefined]. *)
Definition loadImages (fetch : string → FetchOutcome) (category : jsval)
    (w : World) : World * option json :=
  let url := request_url category in
  let w := record_request url w in
  match fetch url with
  | NetworkFailure => (console_error "Error loading images:" TypeError w, None)
  | Responded response =>
      match body_json response with
      | None => (console_error "Error loading images:" SyntaxError w, None)
      | Some images => (w, Some images)
      end
  end.

Section Collation.
(** [a.localeCompare(b)] of the host. *)
Variable localeCompare : string → string → Z.

(** The comparator of [applyFiltersAndSort]: the [switch] tries its cases
    in order, each with [===]. *)
Definition compareFn (sortCriteria : jsval) (a b : ImageRecord) : Z :=
  if strict_equals sortCriteria "date" then
    FileInfo.modified (file_info b) - FileInfo.modified (file_info a)
  else if strict_equals sortCriteria "name" then
    localeCompare (FileInfo.name (file_info a)) (FileInfo.name (file_info b))
  else if strict_equals sortCriteria "size" then
    FileInfo.size (file_info b) - FileInfo.size (file_info a)
  else 0.

(** The filter step: [filtered] after the first [if]. *)
Definition apply_filters (st : State) : list ImageRecord :=
  let filtered := allImages st in
  if decide (0 < size (activeFilters st))%nat
  then filter (λ image, category_of image ∈ activeFilters st) filtered
  else filtered.

(** The sort step: [filtered] after the second [if]. *)
Definition apply_sort (sortCriteria : jsval) (filtered : list ImageRecord)
    : list ImageRecord :=
  if truthy sortCriteria
  then Array_sort (compareFn sortCriteria) filtered
  else filtered.

(** [applyFiltersAndSort(sortCriteria)].  [filtered] starts as a copy of
    [state.allImages], so the in-place sort leaves [allImages] alone. *)
Definition applyFiltersAndSort (sortCriteria : jsval) (w : World) : World :=
  let filtered := apply_sort sortCriteria (apply_filters (state w)) in
  displayImages filtered (set_filteredImages filtered w).

(** [handleSort()]: [None] is the uncaught TypeError of a missing select. *)
Definition handleSort (w : World) : option World :=
  match sort_select (dom w) with
  | Some criteria => Some (applyFiltersAndSort (Str criteria) w)
  | None => None
  end.
End Collation.

(** The DOMContentLoaded handler: both results are dropped. *)
Definition on_DOMContentLoaded (fetch : string → FetchOutcome) (w : World)
    : World :=
  fst (loadImages fetch Undefined (loadCategories w)).

(** ** A collation to run the sort with

    Comparison by code units: what [localeCompare] computes in a locale whose
    collation is the binary one.  It gives the theorems on sorting an
    instance that evaluates. *)
Definition codeUnitCompare (a b : string) : Z :=
  match String.compare a b with
  | Lt => -1
  | Eq => 0
  | Gt => 1
  end.

(** The first scenario of the specification: two images, no filter. *)
Definition image_a : ImageRecord :=
  {| file_info := FileInfo.Build "cats/a.jpg" "a" 10 100 |}.
Definition image_b : ImageRecord :=
  {| file_info := FileInfo.Build "dogs/b.jpg" "b" 20 200 |}.

Definition page (images : list ImageRecord) (filters : gset string) : World :=
  {| state := {| allImages := images; filteredImages := [];
                 activeFilters := filters |};
     dom := {| sort_select := Some "date"; category_filters := Some "" |};
     console := []; displayed := []; requests := [] |}.

Definition scenario_world : World := page [image_a; image_b] ∅.

(** ** Properties the theorems are stated with *)

(** What [Array.prototype.sort] needs of a comparator to promise a sorted
    result: of two elements one is not greater than the other, and "not
    greater" is transitive.  ECMAScript's consistent comparators have both. *)
Definition consistent_comparator {A : Type} (cmp : A → A → Z) : Prop :=
  (∀ a b, 0 < cmp a b → cmp b a <= 0) ∧
  (∀ a b c, cmp a b <= 0 → cmp b c <= 0 → cmp a c <= 0).

(** [a] may stand in front of [b]. *)
Definition not_after {A : Type} (cmp : A → A → Z) (a b : A) : Prop :=
  cmp a b <= 0.

(** [a] and [b] tie: neither has to stand in front of the other. *)
Definition ties {A : Type} (cmp : A → A → Z) (a b : A) : Prop :=
  cmp a b <= 0 ∧ cmp b a <= 0.

#[global] Instance ties_dec {A : Type} (cmp : A → A → Z) (a b : A) :
  Decision (ties cmp a b).
Proof. unfold ties. apply _. Defined.

(** The distinct elements of [l], each at the place of its first
    occurrence: the order in which a reader of [l] sees them first. *)
Fixpoint first_seen (l : list string) : list string :=
  match l with
  | [] => []
  | x :: l' => x :: filter (λ y, y ≠ x) (first_seen l')
  end.

(** A failed load as the specification describes it: the error is logged,
    the caller gets [undefined], the view state is as before. *)
Definition opaque_failure (fetch : string → FetchOutcome) (category : jsval)
    (w : World) : Prop :=
  let r := loadImages fetch category w in
  r.2 = None ∧
  (∃ e, console r.1 = console w ++ [("Error loading images:", e)]) ∧
  state r.1 = state w.

(** ** Networks and pages to evaluate on *)

(** A server that answers 500 with a JSON error object. *)
Definition error_body : json := JObject [("error", JString "internal")].
Definition response_500_json : Response :=
  {| status := 500; body_json := Some error_body |}.
Definition fetch_500_json (url : string) : FetchOutcome :=
  Responded response_500_json.

(** A server that answers 500 with an HTML error page. *)
Definition response_500_html : Response :=
  {| status := 500; body_json := None |}.
Definition fetch_500_html (url : string) : FetchOutcome :=
  Responded response_500_html.

(** An image at the top of the tree: its path has no separator. *)
Definition image_loose : ImageRecord :=
  {| file_info := FileInfo.Build "loose.jpg" "loose" 5 50 |}.

Definition cats_only_world : World := page [image_a; image_b] {["cats"]}.

(** [arr.join(sep)]. *)
Fixpoint join (sep : string) (l : list string) : string :=
  match l with
  | [] => EmptyString
  | [x] => x
  | x :: l' => x +:+ sep +:+ join sep l'
  end.

(** A page whose document has neither the button container nor the select. *)
Definition bare_world : World :=
  {| state := {| allImages := [image_a; image_b]; filteredImages := [];
                 activeFilters := ∅ |};
     dom := {| sort_select := None; category_filters := None |};
     console := []; displayed := []; requests := [] |}.

(** An image that ties with [image_a] on [modified]. *)
Definition image_c : ImageRecord :=
  {| file_info := FileInfo.Build "cats/c.jpg" "c" 30 100 |}.

Definition ties_world : World := page [image_a; image_b; image_c] ∅.
Definition recent_first_world : World := page [image_b; image_a] ∅.

Definition both_world : World := page [image_a; image_b] {["cats"; "dogs"]}.

(** ** How the browser reads the markup of the container

    Assigning to [innerHTML] runs the HTML fragment parser on the string.
    [Html.button_tags] is the tokenizer of the HTML standard (WHATWG HTML,
    13.2.5), state by state, for the part of the syntax the markup of
    [loadCategories] can reach: text, start and end tags with their
    attributes, comments.  It returns the attributes of the [button] start
    tags in document order; for a container that holds flow content (a
    [div], say) each of them becomes one button element, a nested one
    closing the button that is open.  [None] is markup outside the modelled
    part: a character reference ('&'), a NUL or a carriage return (read
    before the tokenizer runs), a DOCTYPE or CDATA section, or a start tag
    of another element, which may switch the tokenizer or the tree builder
    to another mode. *)
Module Html.

Inductive tok_state : Type :=
  | Data | TagOpen | EndTagOpen | TagName
  | BeforeAttributeName | AttributeName | AfterAttributeName
  | BeforeAttributeValue | AttributeValueDoubleQuoted
  | AttributeValueSingleQuoted | AttributeValueUnquoted
  | AfterAttributeValueQuoted | SelfClosingStartTag
  | BogusComment | MarkupDeclarationOpen | MarkupDeclarationDash
  | CommentStart | CommentStartDash | Comment
  | CommentLessThanSign | CommentLessThanSignBang
  | CommentLessThanSignBangDash | CommentLessThanSignBangDashDash
  | CommentEndDash | CommentEnd | CommentEndBang.

(** The tag token under construction, with the attribute being read. *)
Record tag : Type := {
  is_end_tag : bool;
  tag_name : string;
  attributes : list (string * string);
  attr_open : bool;
  attr_name : string;
  attr_value : string
}.

Record tokenizer : Type := {
  tstate : tok_state;
  current : tag;
  buttons : list (list (string * string))
}.

Definition dquote : ascii := ascii_of_nat 34.

Definition is_whitespace (c : ascii) : bool :=
  Ascii.eqb c (ascii_of_nat 9) || Ascii.eqb c (ascii_of_nat 10) ||
  Ascii.eqb c (ascii_of_nat 12) || Ascii.eqb c " ".

Definition is_upper (c : ascii) : bool :=
  (65 <=? nat_of_ascii c)%nat && (nat_of_ascii c <=? 90)%nat.

Definition is_alpha (c : ascii) : bool :=
  is_upper c || (97 <=? nat_of_ascii c)%nat && (nat_of_ascii c <=? 122)%nat.

Definition to_lower (c : ascii) : ascii :=
  if is_upper c then ascii_of_nat (nat_of_ascii c + 32) else c.

(** Characters whose handling is not modelled. *)
Definition unmodelled (c : ascii) : bool :=
  Ascii.eqb c (ascii_of_nat 0) || Ascii.eqb c (ascii_of_nat 13) ||
  Ascii.eqb c "&".

Definition push (s : string) (c : ascii) : string :=
  s +:+ String c EmptyString.

Definition new_tag (is_end : bool) : tag :=
  {| is_end_tag := is_end; tag_name := EmptyString; attributes := [];
     attr_open := false; attr_name := EmptyString; attr_value := EmptyString |}.

(** The attribute being read joins the tag, unless the tag has one of the
    same name already. *)
Definition close_attribute (t : tag) : tag :=
  if attr_open t then
    {| is_end_tag := is_end_tag t; tag_name := tag_name t;
       attributes :=
         if bool_decide (attr_name t ∈ (attributes t).*1) then attributes t
         else attributes t ++ [(attr_name t, attr_value t)];
       attr_open := false; attr_name := EmptyString;
       attr_value := EmptyString |}
  else t.

(** Start a new attribute whose name begins with [c]. *)
Definition new_attribute (c : ascii) (t : tag) : tag :=
  let t := close_attribute t in
  {| is_end_tag := is_end_tag t; tag_name := tag_name t;
     attributes := attributes t; attr_open := true;
     attr_name := String (to_lower c) EmptyString;
     attr_value := EmptyString |}.

Definition push_tag_name (c : ascii) (t : tag) : tag :=
  {| is_end_tag := is_end_tag t; tag_name := push (tag_name t) (to_lower c);
     attributes := attributes t; attr_open := attr_open t;
     attr_name := attr_name t; attr_value := attr_value t |}.

Definition push_attr_name (c : ascii) (t : tag) : tag :=
  {| is_end_tag := is_end_tag t; tag_name := tag_name t;
     attributes := attributes t; attr_open := attr_open t;
     attr_name := push (attr_name t) (to_lower c);
     attr_value := attr_value t |}.

Definition push_attr_value (c : ascii) (t : tag) : tag :=
  {| is_end_tag := is_end_tag t; tag_name := tag_name t;
     attributes := attributes t; attr_open := attr_open t;
     attr_name := attr_name t; attr_value := push (attr_value t) c |}.

Definition goto (s : tok_state) (k : tokenizer) : option tokenizer :=
  Some {| tstate := s; current := current k; buttons := buttons k |}.

Definition goto_with (s : tok_state) (t : tag) (k : tokenizer)
    : option tokenizer :=
  Some {| tstate := s; current := t; buttons := buttons k |}.

(** Emit the current tag and return to the data state. *)
Definition emit (k : tokenizer) : option tokenizer :=
  let t := close_attribute (current k) in
  if is_end_tag t then
    Some {| tstate := Data; current := new_tag false; buttons := buttons k |}
  else if String.eqb (tag_name t) "button" then
    Some {| tstate := Data; current := new_tag false;
            buttons := buttons k ++ [attributes t] |}
  else None.

Definition data (k : tokenizer) (c : ascii) : option tokenizer :=
  if Ascii.eqb c "<" then goto TagOpen k else goto Data k.

Definition comment (k : tokenizer) (c : ascii) : option tokenizer :=
  if Ascii.eqb c "<" then goto CommentLessThanSign k
  else if Ascii.eqb c "-" then goto CommentEndDash k
  else goto Comment k.

Definition comment_end_dash (k : tokenizer) (c : ascii) : option tokenizer :=
  if Ascii.eqb c "-" then goto CommentEnd k else comment k c.

Definition comment_end (k : tokenizer) (c : ascii) : option tokenizer :=
  if Ascii.eqb c ">" then goto Data k
  else if Ascii.eqb c "!" then goto CommentEndBang k
  else if Ascii.eqb c "-" then goto CommentEnd k
  else comment k c.

Definition comment_end_bang (k : tokenizer) (c : ascii) : option tokenizer :=
  if Ascii.eqb c "-" then goto CommentEndDash k
  else if Ascii.eqb c ">" then goto Data k
  else comment k c.

Definition comment_less_than_sign (k : tokenizer) (c : ascii)
    : option tokenizer :=
  if Ascii.eqb c "!" then goto CommentLessThanSignBang k
  else if Ascii.eqb c "<" then goto CommentLessThanSign k
  else comment k c.

Definition comment_less_than_sign_bang (k : tokenizer) (c : ascii)
    : option tokenizer :=
  if Ascii.eqb c "-" then goto CommentLessThanSignBangDash k
  else comment k c.

Definition comment_less_than_sign_bang_dash (k : tokenizer) (c : ascii)
    : option tokenizer :=
  if Ascii.eqb c "-" then goto CommentLessThanSignBangDashDash k
  else comment_end_dash k c.

Definition comment_start (k : tokenizer) (c : ascii) : option tokenizer :=
  if Ascii.eqb c "-" then goto CommentStartDash k
  else if Ascii.eqb c ">" then goto Data k
  else comment k c.

Definition comment_start_dash (k : tokenizer) (c : ascii) : option tokenizer :=
  if Ascii.eqb c "-" then goto CommentEnd k
  else if Ascii.eqb c ">" then goto Data k
  else comment k c.

Definition bogus_comment (k : tokenizer) (c : ascii) : option tokenizer :=
  if Ascii.eqb c ">" then goto Data k else goto BogusComment k.

(** After "<!": two hyphens open a comment; a DOCTYPE or a CDATA section is
    not modelled; anything else is a bogus comment. *)
Definition markup_declaration_open (k : tokenizer) (c : ascii)
    : option tokenizer :=
  if Ascii.eqb c "-" then goto MarkupDeclarationDash k
  else if Ascii.eqb c "d" || Ascii.eqb c "D" || Ascii.eqb c "[" then None
  else bogus_comment k c.

Definition markup_declaration_dash (k : tokenizer) (c : ascii)
    : option tokenizer :=
  if Ascii.eqb c "-" then goto CommentStart k else bogus_comment k c.

Definition tag_name_state (k : tokenizer) (c : ascii) : option tokenizer :=
  if is_whitespace c then goto BeforeAttributeName k
  else if Ascii.eqb c "/" then goto SelfClosingStartTag k
  else if Ascii.eqb c ">" then emit k
  else goto_with TagName (push_tag_name c (current k)) k.

Definition tag_open (k : tokenizer) (c : ascii) : option tokenizer :=
  if Ascii.eqb c "!" then goto MarkupDeclarationOpen k
  else if Ascii.eqb c "/" then goto EndTagOpen k
  else if is_alpha c then
    tag_name_state
      {| tstate := TagName; current := new_tag false; buttons := buttons k |} c
  else if Ascii.eqb c "?" then goto BogusComment k
  else data k c.

Definition end_tag_open (k : tokenizer) (c : ascii) : option tokenizer :=
  if is_alpha c then
    tag_name_state
      {| tstate := TagName; current := new_tag true; buttons := buttons k |} c
  else if Ascii.eqb c ">" then goto Data k
  else bogus_comment k c.

Definition after_attribute_name (k : tokenizer) (c : ascii)
    : option tokenizer :=
  if is_whitespace c then goto AfterAttributeName k
  else if Ascii.eqb c "/" then goto SelfClosingStartTag k
  else if Ascii.eqb c "=" then goto BeforeAttributeValue k
  else if Ascii.eqb c ">" then emit k
  else goto_with AttributeName (new_attribute c (current k)) k.

Definition attribute_name (k : tokenizer) (c : ascii) : option tokenizer :=
  if is_whitespace c || Ascii.eqb c "/" || Ascii.eqb c ">"
  then after_attribute_name k c
  else if Ascii.eqb c "=" then goto BeforeAttributeValue k
  else goto_with AttributeName (push_attr_name c (current k)) k.

Definition before_attribute_name (k : tokenizer) (c : ascii)
    : option tokenizer :=
  if is_whitespace c then goto BeforeAttributeName k
  else if Ascii.eqb c "/" || Ascii.eqb c ">" then after_attribute_name k c
  else goto_with AttributeName (new_attribute c (current k)) k.

Definition attribute_value_unquoted (k : tokenizer) (c : ascii)
    : option tokenizer :=
  if is_whitespace c then goto BeforeAttributeName k
  else if Ascii.eqb c ">" then emit k
  else goto_with AttributeValueUnquoted (push_attr_value c (current k)) k.

Definition before_attribute_value (k : tokenizer) (c : ascii)
    : option tokenizer :=
  if is_whitespace c then goto BeforeAttributeValue k
  else if Ascii.eqb c dquote then goto AttributeValueDoubleQuoted k
  else if Ascii.eqb c "'" then goto AttributeValueSingleQuoted k
  else if Ascii.eqb c ">" then emit k
  else attribute_value_unquoted k c.

Definition attribute_value_double_quoted (k : tokenizer) (c : ascii)
    : option tokenizer :=
  if Ascii.eqb c dquote then goto AfterAttributeValueQuoted k
  else goto_with AttributeValueDoubleQuoted (push_attr_value c (current k)) k.

Definition attribute_value_single_quoted (k : tokenizer) (c : ascii)
    : option tokenizer :=
  if Ascii.eqb c "'" then goto AfterAttributeValueQuoted k
  else goto_with AttributeValueSingleQuoted (push_attr_value c (current k)) k.

Definition after_attribute_value_quoted (k : tokenizer) (c : ascii)
    : option tokenizer :=
  if is_whitespace c then goto BeforeAttributeName k
  else if Ascii.eqb c "/" then goto SelfClosingStartTag k
  else if Ascii.eqb c ">" then emit k
  else before_attribute_name k c.

Definition self_closing_start_tag (k : tokenizer) (c : ascii)
    : option tokenizer :=
  if Ascii.eqb c ">" then emit k else before_attribute_name k c.

(** One character of input. *)
Definition step (k : tokenizer) (c : ascii) : option tokenizer :=
  if unmodelled c then None else
  match tstate k with
  | Data => data k c
  | TagOpen => tag_open k c
  | EndTagOpen => end_tag_open k c
  | TagName => tag_name_state k c
  | BeforeAttributeName => before_attribute_name k c
  | AttributeName => attribute_name k c
  | AfterAttributeName => after_attribute_name k c
  | BeforeAttributeValue => before_attribute_value k c
  | AttributeValueDoubleQuoted => attribute_value_double_quoted k c
  | AttributeValueSingleQuoted => attribute_value_single_quoted k c
  | AttributeValueUnquoted => attribute_value_unquoted k c
  | AfterAttributeValueQuoted => after_attribute_value_quoted k c
  | SelfClosingStartTag => self_closing_start_tag k c
  | BogusComment => bogus_comment k c
  | MarkupDeclarationOpen => markup_declaration_open k c
  | MarkupDeclarationDash => markup_declaration_dash k c
  | CommentStart => comment_start k c
  | CommentStartDash => comment_start_dash k c
  | Comment => comment k c
  | CommentLessThanSign => comment_less_than_sign k c
  | CommentLessThanSignBang => comment_less_than_sign_bang k c
  | CommentLessThanSignBangDash => comment_less_than_sign_bang_dash k c
  | CommentLessThanSignBangDashDash => comment_end k c
  | CommentEndDash => comment_end_dash k c
  | CommentEnd => comment_end k c
  | CommentEndBang => comment_end_bang k c
  end.

Fixpoint tokenize (k : tokenizer) (s : string) : option tokenizer :=
  match s with
  | EmptyString => Some k
  | String c s' =>
      match step k c with
      | Some k' => tokenize k' s'
      | None => None
      end
  end.

Definition start : tokenizer :=
  {| tstate := Data; current := new_tag false; buttons := [] |}.

(** The [button] start tags of a fragment, each with its attributes.  At
    the end of the input a tag that is not closed is dropped. *)
Definition button_tags (html : string) : option (list (list (string * string))) :=
  buttons <$> tokenize start html.

End Html.

(** A category that the template can take as it is: no '<', no double
    quote, and none of the characters the tokenizer model leaves out. *)
Fixpoint markup_safe (category : string) : bool :=
  match category with
  | EmptyString => true
  | String c category' =>
      negb (Ascii.eqb c "<") && negb (Ascii.eqb c Html.dquote) &&
      negb (Html.unmodelled c) && markup_safe category'
  end.

(** The button the template is written to give for a category. *)
Definition button_attributes (category : string) : list (string * string) :=
  [("class", "px-4 py-2 rounded-lg bg-gray-200 hover:bg-gray-300 transition-all");
   ("onclick", "toggleFilter('" +:+ category +:+ "')");
   ("data-category", category)].


(** ** Facts about the platform functions *)

Lemma split_not_nil (sep : ascii) (s : string) : split sep s ≠ [].
Proof.
  destruct s as [|c s]; simpl; [done|].
  destruct (Ascii.eqb c sep); [done|].
  by destruct (split sep s).
Qed.

Lemma split_without_separator (sep : ascii) (s : string) :
  includes sep s = false → split sep s = [s].
Proof.
  induction s as [|c s IH]; simpl; [done|].
  intros [Hc Hs]%orb_false_iff.
  rewrite Hc, (IH Hs). done.
Qed.

Lemma category_of_whole_path (image : ImageRecord) :
  includes "/" (FileInfo.path (file_info image)) = false →
  category_of image = FileInfo.path (file_info image).
Proof.
  intros H. unfold category_of.
  by rewrite (split_without_separator _ _ H).
Qed.

Section ArraySortFacts.
Context {A : Type}.
Variable cmp : A → A → Z.

Lemma sort_insert_Permutation (x : A) (l : list A) :
  sort_insert cmp x l ≡ₚ x :: l.
Proof.
  induction l as [|y l IH]; simpl; [done|].
  destruct (cmp x y <=? 0); [done|].
  rewrite IH. apply Permutation_swap.
Qed.

Lemma Array_sort_Permutation (l : list A) : Array_sort cmp l ≡ₚ l.
Proof.
  induction l as [|x l IH]; simpl; [done|].
  by rewrite sort_insert_Permutation, IH.
Qed.

Lemma Array_sort_length (l : list A) :
  length (Array_sort cmp l) = length l.
Proof. by rewrite Array_sort_Permutation. Qed.

Lemma elem_of_Array_sort (x : A) (l : list A) :
  x ∈ Array_sort cmp l ↔ x ∈ l.
Proof. by rewrite Array_sort_Permutation. Qed.

(** An array that is in order already is left as it is: nothing that
    compares equal is moved. *)
Lemma Array_sort_in_order (l : list A) :
  Sorted (not_after cmp) l → Array_sort cmp l = l.
Proof.
  induction 1 as [|x l Hl IH Hx]; simpl; [done|].
  rewrite IH. destruct Hx as [|y l Hxy]; simpl; [done|].
  unfold not_after in Hxy.
  by destruct (Z.leb_spec (cmp x y) 0); [|lia].
Qed.

Lemma sort_insert_sorted (x : A) (l : list A) :
  consistent_comparator cmp →
  StronglySorted (not_after cmp) l →
  StronglySorted (not_after cmp) (sort_insert cmp x l).
Proof.
  intros [Htot Htrans]. induction 1 as [|y l Hl IH Hy]; simpl.
  - repeat constructor.
  - destruct (Z.leb_spec (cmp x y) 0) as [Hxy|Hxy].
    + constructor; [by constructor|].
      constructor; [done|].
      eapply Forall_impl; [exact Hy|].
      intros z Hyz. by apply (Htrans x y z).
    + constructor; [done|].
      rewrite sort_insert_Permutation.
      constructor; [|done]. by apply Htot.
Qed.

(** Stability: the elements that tie with [z] keep their order. *)
Lemma sort_insert_stable (z x : A) (l : list A) :
  consistent_comparator cmp →
  filter (ties cmp z) (sort_insert cmp x l) = filter (ties cmp z) (x :: l).
Proof.
  intros [Htot Htrans]. induction l as [|y l IH]; [done|].
  cbn [sort_insert]. destruct (Z.leb_spec (cmp x y) 0) as [Hxy|Hxy]; [done|].
  rewrite filter_cons, IH, !filter_cons.
  destruct (decide (ties cmp z y)) as [[Hzy Hyz]|]; [|done].
  destruct (decide (ties cmp z x)) as [[Hzx Hxz]|]; [|done].
  pose proof (Htrans x z y Hxz Hzy). lia.
Qed.

Lemma Array_sort_stable (z : A) (l : list A) :
  consistent_comparator cmp →
  filter (ties cmp z) (Array_sort cmp l) = filter (ties cmp z) l.
Proof.
  intros Hc. induction l as [|x l IH]; [done|].
  cbn [Array_sort foldr]. rewrite sort_insert_stable by done.
  rewrite !filter_cons. fold (Array_sort cmp l). by rewrite IH.
Qed.

Lemma Array_sort_sorted (l : list A) :
  consistent_comparator cmp →
  StronglySorted (not_after cmp) (Array_sort cmp l).
Proof.
  intros Hc. induction l as [|x l IH]; simpl; [constructor|].
  by apply sort_insert_sorted.
Qed.
End ArraySortFacts.

(** A comparator that answers 0 for every pair moves nothing. *)
Lemma Array_sort_all_equal {A : Type} (cmp : A → A → Z) (l : list A) :
  (∀ a b, cmp a b = 0) → Array_sort cmp l = l.
Proof.
  intros H0. apply Array_sort_in_order.
  induction l as [|x l IH]; constructor; [done|].
  destruct l; constructor. unfold not_after. by rewrite H0.
Qed.

Lemma codeUnitCompare_le (a b : string) :
  codeUnitCompare a b <= 0 ↔ String.le a b.
Proof.
  unfold codeUnitCompare, String.le, String.leb.
  destruct (String.compare a b); simpl; split; done || lia.
Qed.

Lemma codeUnitCompare_consistent : consistent_comparator codeUnitCompare.
Proof.
  split.
  - intros a b Hab. apply codeUnitCompare_le.
    destruct (total String.le a b) as [H|H]; [|done].
    apply codeUnitCompare_le in H. lia.
  - intros a b c Hab%codeUnitCompare_le Hbc%codeUnitCompare_le.
    apply codeUnitCompare_le. by etrans.
Qed.

(** ** Facts about the category set *)

Lemma elem_of_Set_add (x y : string) (s : list string) :
  y ∈ Set_add x s ↔ y = x ∨ y ∈ s.
Proof.
  unfold Set_add. case_decide; [|rewrite elem_of_app]; set_solver.
Qed.

Lemma filter_all {A : Type} (P : A → Prop) `{!∀ x, Decision (P x)}
    (l : list A) :
  (∀ x, x ∈ l → P x) → filter P l = l.
Proof.
  induction l as [|x l IH]; intros HP; [done|].
  rewrite filter_cons_True by (apply HP; left).
  f_equal. apply IH. intros y Hy. apply HP. by right.
Qed.

Lemma first_seen_filter (P : string → Prop) `{!∀ x, Decision (P x)}
    (l : list string) :
  first_seen (filter P l) = filter P (first_seen l).
Proof.
  induction l as [|x l IH]; [done|].
  cbn [first_seen]. rewrite filter_cons. destruct (decide (P x)) as [HP|HP].
  - cbn [first_seen]. rewrite filter_cons_True by done.
    f_equal. rewrite IH, !list_filter_filter. apply list_filter_iff. tauto.
  - rewrite filter_cons_False by done.
    rewrite IH, list_filter_filter. apply list_filter_iff.
    intros y. split; [|tauto]. intros Hy. split; [done|]. by intros ->.
Qed.

Lemma elem_of_first_seen (x : string) (l : list string) :
  x ∈ first_seen l ↔ x ∈ l.
Proof.
  induction l as [|y l IH]; simpl; [done|].
  rewrite !elem_of_cons, list_elem_of_filter, IH.
  destruct (decide (x = y)); naive_solver.
Qed.


(** The fold over [Set_add], started from any set [acc]. *)
Lemma foldl_Set_add (acc l : list string) :
  foldl (λ s x, Set_add x s) acc l
  = acc ++ first_seen (filter (λ x, x ∉ acc) l).
Proof.
  revert acc. induction l as [|x l IH]; intros acc; simpl.
  - by rewrite app_nil_r.
  - rewrite IH, filter_cons. unfold Set_add.
    destruct (decide (x ∈ acc)) as [Hin|Hin].
    + by rewrite decide_False by tauto.
    + rewrite decide_True by done. simpl. rewrite <-app_assoc. simpl.
      do 2 f_equal. rewrite <-first_seen_filter, list_filter_filter.
      f_equal. apply list_filter_iff. intros y.
      rewrite elem_of_app, list_elem_of_singleton. tauto.
Qed.

Lemma foldl_category_of (acc : list string) (images : list ImageRecord) :
  foldl (λ categories image, Set_add (category_of image) categories) acc images
  = foldl (λ s x, Set_add x s) acc (category_of <$> images).
Proof.
  revert acc. induction images as [|i images IH]; intros acc; [done|apply IH].
Qed.

Lemma derive_categories_first_seen (images : list ImageRecord) :
  derive_categories images = first_seen (category_of <$> images).
Proof.
  unfold derive_categories. rewrite foldl_category_of, foldl_Set_add.
  simpl. f_equal. apply filter_all. intros x _. apply not_elem_of_nil.
Qed.


Lemma elem_of_derive_categories (c : string) (images : list ImageRecord) :
  c ∈ derive_categories images ↔ ∃ image, image ∈ images ∧ category_of image = c.
Proof.
  rewrite derive_categories_first_seen, elem_of_first_seen, list_elem_of_fmap.
  naive_solver.
Qed.

Lemma loadCategories_missing_container (w : World) :
  category_filters (dom w) = None →
  loadCategories w = console_error "Error loading categories:" TypeError w.
Proof. unfold loadCategories. by intros ->. Qed.

(** ** Facts about the filter and the sort of [applyFiltersAndSort] *)

Lemma size_pos_non_empty (X : gset string) : (0 < size X)%nat ↔ X ≠ ∅.
Proof.
  rewrite <-(leibniz_equiv_iff X ∅), <-size_empty_iff. lia.
Qed.

Lemma StronglySorted_weaken {A : Type} (R1 R2 : A → A → Prop) (l : list A) :
  (∀ a b, R1 a b → R2 a b) → StronglySorted R1 l → StronglySorted R2 l.
Proof.
  intros HR. induction 1 as [|x l Hl IH Hx]; constructor; [done|].
  eapply Forall_impl; [exact Hx|]. intros y. apply HR.
Qed.

Lemma strict_equals_true (v : jsval) (s : string) :
  strict_equals v s = true ↔ v = Str s.
Proof.
  destruct v as [| |s']; simpl; [done..|].
  rewrite String.eqb_eq. split; congruence.
Qed.

Section SortFacts.
Variable localeCompare : string → string → Z.

(** The first [if]: with no active filter every image is kept. *)
Lemma apply_filters_spec (st : State) :
  apply_filters st
  = filter (λ image, activeFilters st = ∅ ∨ category_of image ∈ activeFilters st)
      (allImages st).
Proof.
  unfold apply_filters. case_decide as Hsize.
  - apply size_pos_non_empty in Hsize. apply list_filter_iff. tauto.
  - symmetry. apply filter_all. intros image _. left.
    destruct (decide (activeFilters st = ∅)) as [|Hne]; [done|].
    by apply size_pos_non_empty in Hne.
Qed.

Lemma apply_sort_Permutation (sortCriteria : jsval) (l : list ImageRecord) :
  apply_sort localeCompare sortCriteria l ≡ₚ l.
Proof.
  unfold apply_sort. destruct (truthy sortCriteria); [|done].
  apply Array_sort_Permutation.
Qed.

Lemma compareFn_other (sortCriteria : jsval) (a b : ImageRecord) :
  sortCriteria ≠ Str "date" → sortCriteria ≠ Str "name" →
  sortCriteria ≠ Str "size" →
  compareFn localeCompare sortCriteria a b = 0.
Proof.
  intros Hd Hn Hs. unfold compareFn.
  destruct (strict_equals sortCriteria "date") eqn:E1;
    [by apply strict_equals_true in E1|].
  destruct (strict_equals sortCriteria "name") eqn:E2;
    [by apply strict_equals_true in E2|].
  destruct (strict_equals sortCriteria "size") eqn:E3;
    [by apply strict_equals_true in E3|].
  done.
Qed.

Lemma compareFn_consistent (sortCriteria : jsval) :
  consistent_comparator localeCompare →
  consistent_comparator (compareFn localeCompare sortCriteria).
Proof.
  intros [Htot Htrans]. unfold compareFn.
  destruct (strict_equals sortCriteria "date"); [split; intros; lia|].
  destruct (strict_equals sortCriteria "name").
  { split; [intros a b; apply Htot|intros a b c; apply Htrans]. }
  destruct (strict_equals sortCriteria "size"); split; intros; lia.
Qed.

Lemma date_size_consistent (sortCriteria : jsval) :
  sortCriteria = Str "date" ∨ sortCriteria = Str "size" →
  consistent_comparator (compareFn localeCompare sortCriteria).
Proof.
  intros [-> | ->]; unfold compareFn; simpl; split; intros; lia.
Qed.

(** Under a truthy criterion the array comes out in the order of the
    comparator. *)
Lemma apply_sort_sorted (sortCriteria : jsval) (l : list ImageRecord) :
  truthy sortCriteria = true →
  consistent_comparator (compareFn localeCompare sortCriteria) →
  StronglySorted (not_after (compareFn localeCompare sortCriteria))
    (apply_sort localeCompare sortCriteria l).
Proof.
  intros Ht Hc. unfold apply_sort. rewrite Ht. by apply Array_sort_sorted.
Qed.

Lemma apply_sort_other (sortCriteria : jsval) (l : list ImageRecord) :
  sortCriteria ≠ Str "date" → sortCriteria ≠ Str "name" →
  sortCriteria ≠ Str "size" →
  apply_sort localeCompare sortCriteria l = l.
Proof.
  intros Hd Hn Hs. unfold apply_sort.
  destruct (truthy sortCriteria); [|done].
  apply Array_sort_all_equal. intros a b. by apply compareFn_other.
Qed.

Lemma filteredImages_applyFiltersAndSort (sortCriteria : jsval) (w : World) :
  filteredImages (state (applyFiltersAndSort localeCompare sortCriteria w))
  = apply_sort localeCompare sortCriteria (apply_filters (state w)).
Proof. done. Qed.

Lemma elem_of_filteredImages (sortCriteria : jsval) (w : World)
    (image : ImageRecord) :
  image ∈ filteredImages (state (applyFiltersAndSort localeCompare sortCriteria w))
  ↔ image ∈ allImages (state w) ∧
    (activeFilters (state w) = ∅ ∨ category_of image ∈ activeFilters (state w)).
Proof.
  rewrite filteredImages_applyFiltersAndSort, apply_sort_Permutation.
  rewrite apply_filters_spec, list_elem_of_filter. tauto.
Qed.
End SortFacts.

(** The scenarios of the specification: no filter and sort by date gives
    [b, a]; the filter {cats} gives [a]. *)
Example scenario_date_no_filter :
  filteredImages
    (state (applyFiltersAndSort codeUnitCompare (Str "date") scenario_world))
  = [image_b; image_a].
Proof. reflexivity. Qed.

Example scenario_cats_filter :
  filteredImages
    (state (applyFiltersAndSort codeUnitCompare Undefined cats_only_world))
  = [image_a].
Proof. by vm_compute. Qed.

(** ** The filter/sort engine *)



(** C2. [applyFiltersAndSort] with criterion 'date' yields [modified] values
    that never increase along the sequence, with 'size' [size] values that
    never increase, and with 'name' names that never decrease in the order
    of [localeCompare], for a [localeCompare] that is a consistent
    comparator. *)
Theorem applyFiltersAndSort_sorted
    (localeCompare : string → string → Z) (w : World) :
  let result criterion :=
    filteredImages (state (applyFiltersAndSort localeCompare (Str criterion) w)) in
  StronglySorted
    (λ a b, FileInfo.modified (file_info b) <= FileInfo.modified (file_info a))
    (result "date") ∧
  StronglySorted
    (λ a b, FileInfo.size (file_info b) <= FileInfo.size (file_info a))
    (result "size") ∧
  (consistent_comparator localeCompare →
   StronglySorted
     (λ a b, localeCompare (FileInfo.name (file_info a))
                           (FileInfo.name (file_info b)) <= 0)
     (result "name")).
Proof.
  intros result. subst result. cbv beta.
  rewrite !filteredImages_applyFiltersAndSort. repeat split.
  - eapply StronglySorted_weaken;
      [|apply apply_sort_sorted; [done|apply date_size_consistent; by left]].
    unfold not_after, compareFn. simpl. intros; lia.
  - eapply StronglySorted_weaken;
      [|apply apply_sort_sorted; [done|apply date_size_consistent; by right]].
    unfold not_after, compareFn. simpl. intros; lia.
  - intros Hc. eapply StronglySorted_weaken;
      [|apply apply_sort_sorted; [done|by apply compareFn_consistent]].
    unfold not_after, compareFn. simpl. done.
Qed.

Lemma applyFiltersAndSort_sorted_witness :
  consistent_comparator codeUnitCompare ∧
  StronglySorted
    (λ a b, codeUnitCompare (FileInfo.name (file_info a))
                            (FileInfo.name (file_info b)) <= 0)
    (filteredImages
       (state (applyFiltersAndSort codeUnitCompare (Str "name") scenario_world))).
Proof.
  split; [exact codeUnitCompare_consistent|].
  exact (proj2 (proj2 (applyFiltersAndSort_sorted codeUnitCompare scenario_world))
           codeUnitCompare_consistent).
Defined.

(** C5. After a call of [applyFiltersAndSort], [filteredImages] holds
    images of [allImages] only (each no more often than [allImages] has
    it), exactly those the active filters keep, in the order the criterion
    asks for: [modified] never increasing for 'date', [size] never
    increasing for 'size', names never decreasing under a consistent
    [localeCompare] for 'name', and the order of [allImages] for every other
    criterion; [allImages] and [activeFilters] are as before; and the
    result is computed from [allImages] and [activeFilters] alone: two
    states that agree on these get the same [filteredImages], whatever
    [filteredImages] held before. *)
Theorem applyFiltersAndSort_recomputes
    (localeCompare : string → string → Z) (sortCriteria : jsval) (w : World) :
  let w' := applyFiltersAndSort localeCompare sortCriteria w in
  filteredImages (state w') ⊆+ allImages (state w') ∧
  allImages (state w') = allImages (state w) ∧
  activeFilters (state w') = activeFilters (state w) ∧
  filteredImages (state w')
    ≡ₚ filter (λ image, activeFilters (state w') = ∅ ∨
                        category_of image ∈ activeFilters (state w'))
         (allImages (state w')) ∧
  (sortCriteria = Str "date" →
   StronglySorted
     (λ a b, FileInfo.modified (file_info b) <= FileInfo.modified (file_info a))
     (filteredImages (state w'))) ∧
  (sortCriteria = Str "size" →
   StronglySorted
     (λ a b, FileInfo.size (file_info b) <= FileInfo.size (file_info a))
     (filteredImages (state w'))) ∧
  (sortCriteria = Str "name" → consistent_comparator localeCompare →
   StronglySorted
     (λ a b, localeCompare (FileInfo.name (file_info a))
                           (FileInfo.name (file_info b)) <= 0)
     (filteredImages (state w'))) ∧
  (sortCriteria ≠ Str "date" → sortCriteria ≠ Str "name" →
   sortCriteria ≠ Str "size" →
   filteredImages (state w')
   = filter (λ image, activeFilters (state w') = ∅ ∨
                      category_of image ∈ activeFilters (state w'))
       (allImages (state w'))) ∧
  (truthy sortCriteria = false →
   filteredImages (state w') `sublist_of` allImages (state w')) ∧
  (∀ w2, allImages (state w2) = allImages (state w) →
         activeFilters (state w2) = activeFilters (state w) →
         filteredImages (state (applyFiltersAndSort localeCompare sortCriteria w2))
         = filteredImages (state w')).
Proof.
  intros w'.
  assert (filteredImages (state w')
          ≡ₚ filter (λ image, activeFilters (state w) = ∅ ∨
                              category_of image ∈ activeFilters (state w))
               (allImages (state w))) as Hperm.
  { subst w'. rewrite filteredImages_applyFiltersAndSort.
    by rewrite apply_sort_Permutation, apply_filters_spec. }
  split; [|split; [done|split; [done|split; [done|]]]].
  { change (filteredImages (state w') ⊆+ allImages (state w)).
    rewrite Hperm. apply sublist_submseteq, sublist_filter. }
  subst w'. rewrite !filteredImages_applyFiltersAndSort.
  split; [|split; [|split; [|split; [|split]]]].
  - intros ->. eapply StronglySorted_weaken;
      [|apply apply_sort_sorted; [done|apply date_size_consistent; by left]].
    unfold not_after, compareFn. simpl. intros; lia.
  - intros ->. eapply StronglySorted_weaken;
      [|apply apply_sort_sorted; [done|apply date_size_consistent; by right]].
    unfold not_after, compareFn. simpl. intros; lia.
  - intros -> Hc. eapply StronglySorted_weaken;
      [|apply apply_sort_sorted; [done|by apply compareFn_consistent]].
    unfold not_after, compareFn. simpl. done.
  - intros Hd Hn Hs. rewrite apply_sort_other by done.
    by rewrite apply_filters_spec.
  - intros Hf. unfold apply_sort. rewrite Hf, apply_filters_spec.
    apply sublist_filter.
  - intros w2 Hall Hact. rewrite filteredImages_applyFiltersAndSort. f_equal.
    unfold apply_filters. by rewrite Hall, Hact.
Qed.

Lemma applyFiltersAndSort_recomputes_witness :
  (filteredImages
     (state (applyFiltersAndSort codeUnitCompare (Str "date") both_world))
   = [image_b; image_a] ∧
   StronglySorted
     (λ a b, FileInfo.modified (file_info b) <= FileInfo.modified (file_info a))
     (filteredImages
        (state (applyFiltersAndSort codeUnitCompare (Str "date") both_world)))) ∧
  (consistent_comparator codeUnitCompare ∧
   filteredImages
     (state (applyFiltersAndSort codeUnitCompare (Str "name") recent_first_world))
   = [image_a; image_b] ∧
   StronglySorted
     (λ a b, codeUnitCompare (FileInfo.name (file_info a))
                             (FileInfo.name (file_info b)) <= 0)
     (filteredImages
        (state (applyFiltersAndSort codeUnitCompare (Str "name")
                  recent_first_world)))) ∧
  filteredImages
    (state (applyFiltersAndSort codeUnitCompare (Str "date")
              (applyFiltersAndSort codeUnitCompare (Str "name") both_world)))
  = filteredImages
      (state (applyFiltersAndSort codeUnitCompare (Str "date") both_world)).
Proof.
  pose proof (applyFiltersAndSort_recomputes
                codeUnitCompare (Str "date") both_world) as Hdate.
  pose proof (applyFiltersAndSort_recomputes
                codeUnitCompare (Str "name") recent_first_world) as Hname.
  cbv zeta in Hdate, Hname.
  destruct Hdate as (_ & _ & _ & _ & Hsorted_date & _ & _ & _ & _ & Hsame).
  destruct Hname as (_ & _ & _ & _ & _ & _ & Hsorted_name & _).
  split; [split; [by vm_compute|exact (Hsorted_date eq_refl)]|].
  split.
  - split; [exact codeUnitCompare_consistent|].
    split; [by vm_compute|].
    exact (Hsorted_name eq_refl codeUnitCompare_consistent).
  - exact (Hsame (applyFiltersAndSort codeUnitCompare (Str "name") both_world)
             eq_refl eq_refl).
Defined.

(** C6. For a fixed state and criterion, a second call of
    [applyFiltersAndSort] right after the first leaves the same
    [filteredImages] and hands [displayImages] the same sequence. *)
Theorem applyFiltersAndSort_twice
    (localeCompare : string → string → Z) (sortCriteria : jsval) (w : World) :
  let w1 := applyFiltersAndSort localeCompare sortCriteria w in
  let w2 := applyFiltersAndSort localeCompare sortCriteria w1 in
  filteredImages (state w2) = filteredImages (state w1) ∧
  displayed w2
  = displayed w ++ [filteredImages (state w1); filteredImages (state w1)].
Proof.
  split; [done|].
  cbn [applyFiltersAndSort displayImages set_filteredImages
       displayed state allImages activeFilters filteredImages].
  by rewrite <-app_assoc.
Qed.

(** C7. For a sort criterion other than 'date', 'name' and 'size', absent
    and falsy values included, [applyFiltersAndSort] does not reorder:
    [filteredImages] is the images the filter step keeps, in the order
    [allImages] has them. *)
Theorem applyFiltersAndSort_unknown_criterion
    (localeCompare : string → string → Z) (sortCriteria : jsval) (w : World) :
  sortCriteria ≠ Str "date" → sortCriteria ≠ Str "name" →
  sortCriteria ≠ Str "size" →
  filteredImages (state (applyFiltersAndSort localeCompare sortCriteria w))
  = filter (λ image, activeFilters (state w) = ∅ ∨
                     category_of image ∈ activeFilters (state w))
      (allImages (state w)).
Proof.
  intros Hd Hn Hs.
  rewrite filteredImages_applyFiltersAndSort, apply_sort_other by done.
  apply apply_filters_spec.
Qed.

Lemma applyFiltersAndSort_unknown_criterion_witness :
  (Str "rating" ≠ Str "date" ∧ Str "rating" ≠ Str "name" ∧
   Str "rating" ≠ Str "size") ∧
  filteredImages (state (applyFiltersAndSort codeUnitCompare (Str "rating")
                           scenario_world))
  = filter (λ image, activeFilters (state scenario_world) = ∅ ∨
                     category_of image ∈ activeFilters (state scenario_world))
      (allImages (state scenario_world)).
Proof.
  split; [repeat split; discriminate|].
  apply (applyFiltersAndSort_unknown_criterion codeUnitCompare (Str "rating")
           scenario_world); discriminate.
Defined.

(** ** Facts about the tokenizer *)

Lemma append_cons (c : ascii) (s t : string) :
  String c s +:+ t = String c (s +:+ t).
Proof. done. Qed.

Lemma append_assoc (a b c : string) : (a +:+ b) +:+ c = a +:+ (b +:+ c).
Proof.
  induction a as [|x a IH]; [done|]. by rewrite !append_cons, IH.
Qed.

Lemma tokenize_app (k : Html.tokenizer) (s1 s2 : string) :
  Html.tokenize k (s1 +:+ s2) = Html.tokenize k s1 ≫= λ k', Html.tokenize k' s2.
Proof.
  revert k. induction s1 as [|c s1 IH]; intros k; [done|].
  rewrite append_cons. cbn [Html.tokenize].
  destruct (Html.step k c) as [k'|]; [apply IH|done].
Qed.

Lemma markup_safe_app (a b : string) :
  markup_safe (a +:+ b) = markup_safe a && markup_safe b.
Proof.
  induction a as [|c a IH]; [done|].
  rewrite append_cons. cbn [markup_safe]. rewrite IH. by rewrite !andb_assoc.
Qed.

(** Text without '<' leaves the tokenizer in the data state. *)
Lemma tokenize_text (t : Html.tag) (bs : list (list (string * string)))
    (v : string) :
  markup_safe v = true →
  Html.tokenize {| Html.tstate := Html.Data; Html.current := t;
                   Html.buttons := bs |} v
  = Some {| Html.tstate := Html.Data; Html.current := t; Html.buttons := bs |}.
Proof.
  induction v as [|c v IH]; [done|]. cbn [markup_safe Html.tokenize].
  intros [[[Hlt _]%andb_true_iff Hun]%andb_true_iff Hv]%andb_true_iff.
  unfold Html.step, Html.data. cbn [Html.tstate].
  apply negb_true_iff in Hlt, Hun. rewrite Hun, Hlt. by apply IH.
Qed.

(** Inside a double-quoted attribute value, a string without a double quote
    is taken over as it is. *)
Lemma tokenize_attribute_value (t : Html.tag)
    (bs : list (list (string * string))) (v : string) :
  markup_safe v = true →
  Html.tokenize {| Html.tstate := Html.AttributeValueDoubleQuoted;
                   Html.current := t; Html.buttons := bs |} v
  = Some {| Html.tstate := Html.AttributeValueDoubleQuoted;
            Html.current :=
              {| Html.is_end_tag := Html.is_end_tag t;
                 Html.tag_name := Html.tag_name t;
                 Html.attributes := Html.attributes t;
                 Html.attr_open := Html.attr_open t;
                 Html.attr_name := Html.attr_name t;
                 Html.attr_value := Html.attr_value t +:+ v |};
            Html.buttons := bs |}.
Proof.
  revert t. induction v as [|c v IH]; intros t.
  - intros _. destruct t. cbn. f_equal. f_equal. f_equal.
    clear. induction attr_value as [|x s IH]; [done|].
    by rewrite append_cons, <-IH.
  - cbn [markup_safe Html.tokenize].
    intros [[[_ Hdq]%andb_true_iff Hun]%andb_true_iff Hv]%andb_true_iff.
    unfold Html.step, Html.attribute_value_double_quoted, Html.goto_with.
    cbn [Html.tstate Html.current Html.buttons].
    apply negb_true_iff in Hdq, Hun. rewrite Hun, Hdq.
    rewrite (IH _ Hv). unfold Html.push_attr_value, Html.push.
    cbn [Html.is_end_tag Html.tag_name Html.attributes Html.attr_open
         Html.attr_name Html.attr_value].
    by rewrite append_assoc.
Qed.

Ltac run_literal :=
  lazymatch goal with
  | |- (Html.tokenize ?k ?q ≫= ?f) = ?r =>
      let v := eval vm_compute in (Html.tokenize k q) in
      change (v ≫= f = r); cbn [mbind option_bind]
  end.

Lemma button_split (c : string) :
  button c
  = (nl +:+ "            <button" +:+
     nl +:+ "                class=" +:+ dq +:+
       "px-4 py-2 rounded-lg bg-gray-200 hover:bg-gray-300 transition-all" +:+ dq +:+
     nl +:+ "                onclick=" +:+ dq) +:+
    ("toggleFilter('" +:+ c +:+ "')") +:+
    (dq +:+ nl +:+ "                data-category=" +:+ dq) +:+
    c +:+
    (dq +:+ ">" +:+ nl +:+ "                ") +:+
    c +:+
    (nl +:+ "            </button>" +:+ nl +:+ "        ").
Proof. unfold button. rewrite !append_assoc. reflexivity. Qed.

(** One button of the template, read from the data state, is one [button]
    start tag with the attributes of the template. *)
Lemma tokenize_button (t : Html.tag) (bs : list (list (string * string)))
    (c : string) :
  markup_safe c = true →
  Html.tokenize {| Html.tstate := Html.Data; Html.current := t;
                   Html.buttons := bs |} (button c)
  = Some {| Html.tstate := Html.Data; Html.current := Html.new_tag false;
            Html.buttons := bs ++ [button_attributes c] |}.
Proof.
  intros Hc. rewrite button_split.
  rewrite tokenize_app. run_literal.
  rewrite tokenize_app, tokenize_attribute_value
    by (by rewrite !markup_safe_app, Hc).
  cbn [mbind option_bind].
  rewrite tokenize_app. run_literal.
  rewrite tokenize_app, tokenize_attribute_value by done.
  cbn [mbind option_bind].
  rewrite tokenize_app. run_literal.
  rewrite tokenize_app, tokenize_text by done.
  cbn [mbind option_bind].
  reflexivity.
Qed.

Lemma tokenize_buttons (t : Html.tag) (bs : list (list (string * string)))
    (categories : list string) :
  Forall (λ c, markup_safe c = true) categories →
  ∃ t', Html.tokenize {| Html.tstate := Html.Data; Html.current := t;
                         Html.buttons := bs |}
          (join_empty (button <$> categories))
        = Some {| Html.tstate := Html.Data; Html.current := t';
                  Html.buttons := bs ++ (button_attributes <$> categories) |}.
Proof.
  intros Hsafe. revert t bs.
  induction Hsafe as [|c categories Hc _ IH]; intros t bs.
  - exists t. simpl. by rewrite app_nil_r.
  - cbn [fmap list_fmap join_empty foldr].
    rewrite tokenize_app, tokenize_button by done. cbn [mbind option_bind].
    destruct (IH (Html.new_tag false) (bs ++ [button_attributes c])) as [t' Ht'].
    exists t'. fold (join_empty (button <$> categories)).
    rewrite Ht'. by rewrite <-app_assoc.
Qed.

(** The markup [loadCategories] writes for categories the template can
    take as they are parses to one button for each, in their order. *)
Lemma button_tags_buttons (categories : list string) :
  Forall (λ c, markup_safe c = true) categories →
  Html.button_tags (join_empty (button <$> categories))
  = Some (button_attributes <$> categories).
Proof.
  intros Hsafe. unfold Html.button_tags, Html.start.
  by destruct (tokenize_buttons (Html.new_tag false) [] categories Hsafe)
    as [t' ->].
Qed.

(** ** The category deriver *)




(** C10. An image whose path has no '/' has its whole path as category:
    [loadCategories] lists the path among the categories, and the filter of
    [applyFiltersAndSort] keeps the image exactly when the path is an active
    filter. *)
Theorem category_of_path_without_slash (image : ImageRecord) :
  includes "/" (FileInfo.path (file_info image)) = false →
  category_of image = FileInfo.path (file_info image) ∧
  (∀ images, image ∈ images →
     FileInfo.path (file_info image) ∈ derive_categories images) ∧
  (∀ localeCompare sortCriteria w,
     image ∈ allImages (state w) → activeFilters (state w) ≠ ∅ →
     image ∈ filteredImages
               (state (applyFiltersAndSort localeCompare sortCriteria w))
     ↔ FileInfo.path (file_info image) ∈ activeFilters (state w)).
Proof.
  intros Hpath. pose proof (category_of_whole_path image Hpath) as Hcat.
  repeat split; [done|..].
  - intros images Hin. apply elem_of_derive_categories. eauto.
  - rewrite elem_of_filteredImages, Hcat. tauto.
  - rewrite elem_of_filteredImages, Hcat. tauto.
Qed.

Lemma category_of_path_without_slash_witness :
  includes "/" (FileInfo.path (file_info image_loose)) = false ∧
  category_of image_loose = "loose.jpg".
Proof.
  split; [reflexivity|].
  exact (proj1 (category_of_path_without_slash image_loose eq_refl)).
Defined.

(** ** The image fetcher *)

(** C9. [loadImages] leaves the shared state as it is, on success and on
    failure alike, and the document and the rendered grid too; the parsed
    body only goes back to the caller. *)
Theorem loadImages_state_unchanged
    (fetch : string → FetchOutcome) (category : jsval) (w : World) :
  let r := loadImages fetch category w in
  state r.1 = state w ∧
  allImages (state r.1) = allImages (state w) ∧
  filteredImages (state r.1) = filteredImages (state w) ∧
  activeFilters (state r.1) = activeFilters (state w) ∧
  dom r.1 = dom w ∧ displayed r.1 = displayed w ∧
  r.2 = match fetch (request_url category) with
        | Responded response => body_json response
        | NetworkFailure => None
        end.
Proof.
  unfold loadImages.
  destruct (fetch (request_url category)) as [|response]; [done|].
  by destruct (body_json response).
Qed.

(** C3, as the code has it. A fetch that fails on the network, or whose
    response body is not JSON, whatever its status, is an opaque failure:
    the error is logged, the result is [undefined], the state is as before.
    The status is never looked at: a response whose body parses, a 500
    included, has its body returned and nothing logged; the state is as
    before then too. *)
Theorem loadImages_failure_is_opaque
    (fetch : string → FetchOutcome) (category : jsval) (w : World) :
  let r := loadImages fetch category w in
  (fetch (request_url category) = NetworkFailure ∨
   (∃ response, fetch (request_url category) = Responded response ∧
                body_json response = None) →
   opaque_failure fetch category w) ∧
  (∀ response images,
     fetch (request_url category) = Responded response →
     body_json response = Some images →
     r.2 = Some images ∧ console r.1 = console w ∧ state r.1 = state w).
Proof.
  unfold opaque_failure, loadImages. split.
  - intros [-> | (response & -> & ->)]; simpl; eauto.
  - intros response images -> ->. done.
Qed.

Lemma loadImages_failure_is_opaque_witness :
  (∃ response, fetch_500_html (request_url Undefined) = Responded response ∧
               body_json response = None) ∧
  opaque_failure fetch_500_html Undefined scenario_world.
Proof.
  assert (∃ response, fetch_500_html (request_url Undefined) = Responded response ∧
                      body_json response = None) as H.
  { exists response_500_html. split; reflexivity. }
  split; [exact H|].
  exact (proj1 (loadImages_failure_is_opaque fetch_500_html Undefined scenario_world)
           (or_intror H)).
Defined.

(** C3, as stated, fails: a 500 whose body is JSON is no failure for
    [loadImages]; the error object is returned and nothing is logged. *)
Lemma loadImages_http_500_json_not_failure :
  fetch_500_json (request_url Undefined) = Responded response_500_json ∧
  ¬ (200 <= status response_500_json < 300) ∧
  (loadImages fetch_500_json Undefined scenario_world).2 = Some error_body ∧
  console (loadImages fetch_500_json Undefined scenario_world).1
  = console scenario_world ∧
  ¬ opaque_failure fetch_500_json Undefined scenario_world.
Proof.
  split; [reflexivity|]. split; [simpl; lia|].
  split; [reflexivity|]. split; [reflexivity|].
  intros [Hnone _]. discriminate Hnone.
Qed.

(** C8, as the code has it. [loadImages] requests
    '/api/images?category=<token>' for a category that is a non-empty
    string, and '/api/images' when the argument is absent, null or the empty
    string. *)
Theorem loadImages_request_url
    (fetch : string → FetchOutcome) (category : jsval) (w : World) :
  requests (loadImages fetch category w).1 = requests w ++ [request_url category] ∧
  (∀ token, category = Str token → token ≠ "" →
     request_url category = "/api/images?category=" +:+ token) ∧
  (category = Undefined ∨ category = Null ∨ category = Str "" →
   request_url category = "/api/images").
Proof.
  repeat split.
  - unfold loadImages.
    destruct (fetch (request_url category)) as [|response]; [done|].
    by destruct (body_json response).
  - intros token -> Hne. unfold request_url. simpl.
    by destruct (String.eqb_spec token "").
  - by intros [-> | [-> | ->]].
Qed.

Lemma loadImages_request_url_witness :
  ("cats" ≠ "" ∧ request_url (Str "cats") = "/api/images?category=cats") ∧
  (Str "" = Str "" ∧ request_url (Str "") = "/api/images").
Proof.
  pose proof (loadImages_request_url fetch_500_html (Str "cats") scenario_world)
    as (_ & Hcat & _).
  pose proof (loadImages_request_url fetch_500_html (Str "") scenario_world)
    as (_ & _ & Hnone).
  split; split.
  - discriminate.
  - exact (Hcat "cats" eq_refl ltac:(discriminate)).
  - reflexivity.
  - exact (Hnone (or_intror (or_intror eq_refl))).
Defined.

(** C8, as stated, fails at the empty string: the argument is provided, and
    the URL has no [category] parameter. *)
Lemma request_url_empty_category :
  request_url (Str "") = "/api/images" ∧
  request_url (Str "") ≠ "/api/images?category=" +:+ ToString (Str "") ∧
  requests (loadImages fetch_500_json (Str "") scenario_world).1
  = ["/api/images"].
Proof.
  split; [reflexivity|]. split; [discriminate|reflexivity].
Qed.

(** ** The entry point *)

(** On page load the fetched images are dropped: the state is the one the
    page started with, so the grid shows nothing new until another handler
    stores the images. *)
Lemma on_DOMContentLoaded_state (fetch : string → FetchOutcome) (w : World) :
  state (on_DOMContentLoaded fetch w) = state w.
Proof.
  unfold on_DOMContentLoaded, loadImages, loadCategories.
  destruct (fetch _) as [|response]; [|destruct (body_json response)];
    by destruct (category_filters (dom w)).
Qed.

(** ** More on categories *)

Lemma split_cons_sep (sep : ascii) (s : string) :
  split sep (String sep s) = EmptyString :: split sep s.
Proof. simpl. by rewrite Ascii.eqb_refl. Qed.

Lemma split_prefix (sep : ascii) (seg rest : string) :
  includes sep seg = false →
  split sep (seg +:+ String sep rest) = seg :: split sep rest.
Proof.
  induction seg as [|c seg IH]; intros Hseg.
  - apply split_cons_sep.
  - simpl in Hseg. apply orb_false_iff in Hseg as [Hc Hseg].
    rewrite append_cons. cbn [split]. by rewrite Hc, (IH Hseg).
Qed.

Lemma split_head (sep : ascii) (s seg : string) (segs : list string) :
  split sep s = seg :: segs →
  includes sep seg = false ∧
  (s = seg ∧ segs = [] ∨
   ∃ rest, s = seg +:+ String sep rest ∧ segs = split sep rest).
Proof.
  revert seg segs. induction s as [|c s IH]; intros seg segs; cbn [split].
  - intros [= <- <-]. by split; [|left].
  - destruct (Ascii.eqb_spec c sep) as [->|Hne].
    + intros [= <- <-]. split; [done|]. right. by exists s.
    + destruct (split sep s) as [|seg' segs'] eqn:Hs;
        [by destruct (split_not_nil sep s)|].
      intros [= <- <-]. destruct (IH seg' segs' eq_refl) as [Hinc Hshape].
      split.
      * simpl. rewrite Hinc. by destruct (Ascii.eqb_spec c sep).
      * destruct Hshape as [[-> ->]|(rest & -> & ->)]; [by left|].
        right. by exists rest.
Qed.

Lemma join_cons (sep x : string) (l : list string) :
  l ≠ [] → join sep (x :: l) = x +:+ sep +:+ join sep l.
Proof. by destruct l. Qed.

(** X1. The category of an image is the part of its path in front of the
    first '/': it is the one string without '/' that is the whole path or is
    followed in the path by a '/'. *)
Theorem category_of_first_segment (image : ImageRecord) (c : string) :
  c = category_of image ↔
  includes "/" c = false ∧
  (FileInfo.path (file_info image) = c ∨
   ∃ rest, FileInfo.path (file_info image) = c +:+ String "/" rest).
Proof.
  unfold category_of. split.
  - intros ->.
    destruct (split "/" (FileInfo.path (file_info image))) as [|seg segs] eqn:Hs;
      [by destruct (split_not_nil "/" (FileInfo.path (file_info image)))|].
    destruct (split_head _ _ _ _ Hs) as [Hinc [[-> _]|(rest & -> & _)]];
      split; eauto.
  - intros [Hinc [->|(rest & ->)]].
    + by rewrite split_without_separator.
    + by rewrite split_prefix.
Qed.

(** X2. The category is the empty string exactly for an empty path and for
    a path that starts with '/'. *)
Theorem category_of_empty (image : ImageRecord) :
  category_of image = EmptyString ↔
  FileInfo.path (file_info image) = EmptyString ∨
  ∃ rest, FileInfo.path (file_info image) = String "/" rest.
Proof.
  unfold category_of. split.
  - destruct (split "/" (FileInfo.path (file_info image))) as [|seg segs] eqn:Hs;
      [by destruct (split_not_nil "/" (FileInfo.path (file_info image)))|].
    intros ->.
    destruct (split_head _ _ _ _ Hs) as [_ [[-> _]|(rest & -> & _)]]; eauto.
  - intros [->|(rest & ->)]; [done|]. by rewrite split_cons_sep.
Qed.

(** X3. Splitting on a separator loses nothing: no segment holds the
    separator, and the segments joined with the separator are the string
    again. *)
Theorem split_join (sep : ascii) (s : string) :
  Forall (λ seg, includes sep seg = false) (split sep s) ∧
  join (String sep EmptyString) (split sep s) = s.
Proof.
  induction s as [|c s [IHf IHj]]; [by repeat constructor|].
  cbn [split]. destruct (Ascii.eqb_spec c sep) as [->|Hne].
  - split; [by constructor|].
    rewrite join_cons by apply split_not_nil. by rewrite IHj.
  - destruct (split sep s) as [|seg segs] eqn:Hs;
      [by destruct (split_not_nil sep s)|].
    apply Forall_cons in IHf as [Hseg Hsegs]. split.
    + constructor; [|done]. simpl. rewrite Hseg.
      by destruct (Ascii.eqb_spec c sep).
    + destruct segs as [|seg' segs]; simpl in *; by rewrite <-IHj.
Qed.

(** ** More on the category deriver *)

Lemma first_seen_nil_iff (l : list string) : first_seen l = [] ↔ l = [].
Proof. by destruct l. Qed.

Lemma length_first_seen (l : list string) :
  (length (first_seen l) ≤ length l)%nat.
Proof.
  induction l as [|x l IH]; simpl; [done|].
  pose proof (length_filter (λ y, y ≠ x) (first_seen l)). lia.
Qed.

Lemma join_empty_buttons_nil (categories : list string) :
  join_empty (button <$> categories) = EmptyString ↔ categories = [].
Proof.
  split; [|by intros ->].
  destruct categories as [|c categories]; [done|].
  intros H. discriminate H.
Qed.

(** X4. [loadCategories] replaces the content of the container: a second
    call leaves the document as the first did, so no button is doubled; and
    it never changes the view state, the rendered grid or the requests. *)
Theorem loadCategories_replaces (w : World) :
  dom (loadCategories (loadCategories w)) = dom (loadCategories w) ∧
  state (loadCategories w) = state w ∧
  displayed (loadCategories w) = displayed w ∧
  requests (loadCategories w) = requests w ∧
  sort_select (dom (loadCategories w)) = sort_select (dom w).
Proof.
  unfold loadCategories.
  destruct (category_filters (dom w)) as [html|] eqn:Hdom; simpl.
  - done.
  - by rewrite Hdom.
Qed.

(** X5. Without the container in the document, [loadCategories] logs one
    error and changes nothing else: the exception does not leave the
    function, and the document and the state are as before. *)
Theorem loadCategories_without_container (w : World) :
  category_filters (dom w) = None →
  console (loadCategories w)
  = console w ++ [("Error loading categories:", TypeError)] ∧
  dom (loadCategories w) = dom w ∧
  state (loadCategories w) = state w.
Proof. unfold loadCategories. by intros ->. Qed.

Lemma loadCategories_without_container_witness :
  category_filters (dom bare_world) = None ∧
  console (loadCategories bare_world)
  = [("Error loading categories:", TypeError)].
Proof.
  split; [reflexivity|].
  exact (proj1 (loadCategories_without_container bare_world eq_refl)).
Defined.

(** X6. With the container in the document, [loadCategories] logs nothing
    and leaves the container empty exactly when there are no images; and
    when every category can go into the template as it is, the markup it
    writes holds no more buttons than there are images. *)
Theorem loadCategories_button_count (w : World) (html : string) :
  category_filters (dom w) = Some html →
  console (loadCategories w) = console w ∧
  (category_filters (dom (loadCategories w)) = Some EmptyString
   ↔ allImages (state w) = []) ∧
  (Forall (λ c, markup_safe c = true) (derive_categories (allImages (state w))) →
   ∃ tags,
     category_filters (dom (loadCategories w)) ≫= Html.button_tags = Some tags ∧
     (length tags ≤ length (allImages (state w)))%nat).
Proof.
  intros Hdom. unfold loadCategories. rewrite Hdom. simpl.
  split; [done|]. split.
  - unfold Array_from. split.
    + intros [= H%join_empty_buttons_nil].
      rewrite derive_categories_first_seen in H.
      apply (proj1 (first_seen_nil_iff _)) in H. by apply fmap_nil_inv in H.
    + by intros ->.
  - intros Hsafe. unfold Array_from.
    exists (button_attributes <$> derive_categories (allImages (state w))).
    split; [by apply button_tags_buttons|].
    rewrite length_fmap, derive_categories_first_seen.
    etrans; [apply length_first_seen|]. by rewrite length_fmap.
Qed.

Lemma loadCategories_button_count_witness :
  (category_filters (dom scenario_world) = Some EmptyString ∧
   Forall (λ c, markup_safe c = true)
     (derive_categories (allImages (state scenario_world)))) ∧
  ∃ tags,
    category_filters (dom (loadCategories scenario_world)) ≫= Html.button_tags
    = Some tags ∧
    (length tags ≤ length (allImages (state scenario_world)))%nat.
Proof.
  assert (Forall (λ c, markup_safe c = true)
            (derive_categories (allImages (state scenario_world)))) as Hsafe.
  { repeat constructor. }
  split; [split; [reflexivity|exact Hsafe]|].
  exact (proj2 (proj2 (loadCategories_button_count scenario_world _ eq_refl))
           Hsafe).
Defined.

(** ** More on the sort *)

Section StableSortFacts.
Context {A : Type}.
Variable cmp : A → A → Z.

Lemma sort_insert_front (x : A) (l : list A) :
  Forall (not_after cmp x) l → sort_insert cmp x l = x :: l.
Proof.
  destruct 1 as [|y l Hxy _]; simpl; [done|].
  unfold not_after in Hxy. by destruct (Z.leb_spec (cmp x y) 0); [|lia].
Qed.

Lemma ties_refl (a : A) : consistent_comparator cmp → ties cmp a a.
Proof.
  intros [Htot _]. pose proof (Htot a a). unfold ties. lia.
Qed.

Lemma filter_sort_insert (P : A → Prop) `{!∀ x, Decision (P x)}
    (x : A) (l : list A) :
  consistent_comparator cmp →
  StronglySorted (not_after cmp) l →
  filter P (sort_insert cmp x l)
  = if decide (P x) then sort_insert cmp x (filter P l) else filter P l.
Proof.
  intros [Htot Htrans]. induction 1 as [|y l Hl IH Hy].
  - simpl. rewrite filter_cons. by destruct (decide (P x)).
  - cbn [sort_insert]. destruct (Z.leb_spec (cmp x y) 0) as [Hxy|Hxy].
    + rewrite filter_cons. destruct (decide (P x)); [|done].
      symmetry. apply sort_insert_front, Forall_forall.
      intros z [_ Hz]%list_elem_of_filter.
      apply elem_of_cons in Hz as [->|Hz]; [done|].
      rewrite Forall_forall in Hy. by apply (Htrans x y z), Hy.
    + rewrite filter_cons, IH, (filter_cons _ y l).
      destruct (decide (P y)), (decide (P x)); try done.
      cbn [sort_insert]. by destruct (Z.leb_spec (cmp x y) 0); [lia|].
Qed.

(** Filtering the sorted array and sorting the filtered array agree. *)
Lemma filter_Array_sort (P : A → Prop) `{!∀ x, Decision (P x)} (l : list A) :
  consistent_comparator cmp →
  filter P (Array_sort cmp l) = Array_sort cmp (filter P l).
Proof.
  intros Hc. induction l as [|x l IH]; [done|].
  cbn [Array_sort foldr]. fold (Array_sort cmp l).
  rewrite filter_sort_insert by (done || by apply Array_sort_sorted).
  rewrite filter_cons, IH. by destruct (decide (P x)).
Qed.

(** A sorted array is fixed by what it holds and by the order within each
    class of ties. *)
Lemma stable_sorted_unique (l1 l2 : list A) :
  consistent_comparator cmp →
  StronglySorted (not_after cmp) l1 → StronglySorted (not_after cmp) l2 →
  l1 ≡ₚ l2 →
  (∀ z, filter (ties cmp z) l1 = filter (ties cmp z) l2) →
  l1 = l2.
Proof.
  intros Hc Hs1. revert l2.
  induction Hs1 as [|a l1 Hs1 IH Ha]; intros l2 Hs2 Hperm Hties.
  { by apply Permutation_nil_l in Hperm. }
  destruct Hs2 as [|b l2 Hs2 Hb].
  { by apply Permutation_nil_r in Hperm. }
  assert (a = b) as <-.
  { assert (ties cmp a b) as Hab.
    { assert (b ∈ a :: l1) as Hin1 by (rewrite Hperm; left).
      assert (a ∈ b :: l2) as Hin2 by (rewrite <-Hperm; left).
      rewrite Forall_forall in Ha, Hb.
      apply elem_of_cons in Hin1 as [->|Hin1]; [by apply ties_refl|].
      apply elem_of_cons in Hin2 as [->|Hin2]; [by apply ties_refl|].
      split; [by apply Ha|by apply Hb]. }
    specialize (Hties a).
    rewrite (filter_cons_True _ a) in Hties by by apply ties_refl.
    rewrite (filter_cons_True _ b) in Hties by done.
    congruence. }
  f_equal. apply IH; [done|by apply Permutation_cons_inv in Hperm|].
  intros z. specialize (Hties z). rewrite !filter_cons in Hties.
  destruct (decide (ties cmp z a)); congruence.
Qed.
End StableSortFacts.

Lemma StronglySorted_filter_keep {A : Type} (R : A → A → Prop)
    (P : A → Prop) `{!∀ x, Decision (P x)} (l : list A) :
  StronglySorted R l → StronglySorted R (filter P l).
Proof.
  induction 1 as [|x l Hl IH Hx]; [constructor|].
  rewrite filter_cons. destruct (decide (P x)); [|done].
  constructor; [done|]. apply Forall_forall.
  intros y [_ Hy]%list_elem_of_filter. rewrite Forall_forall in Hx. auto.
Qed.

(** ** More on the filter/sort engine *)

(** X7. With one active filter [c], [filteredImages] holds exactly the
    images of category [c]; the view is non-empty exactly when [c] is one
    of the categories [loadCategories] makes a button for. *)
Theorem applyFiltersAndSort_single_filter
    (localeCompare : string → string → Z) (sortCriteria : jsval) (w : World)
    (c : string) :
  activeFilters (state w) = {[c]} →
  let filtered :=
    filteredImages (state (applyFiltersAndSort localeCompare sortCriteria w)) in
  (∀ image, image ∈ filtered
            ↔ image ∈ allImages (state w) ∧ category_of image = c) ∧
  (filtered ≠ [] ↔ c ∈ derive_categories (allImages (state w))).
Proof.
  intros Hact filtered.
  assert (∀ image, image ∈ filtered
                   ↔ image ∈ allImages (state w) ∧ category_of image = c) as Hin.
  { intros image. subst filtered. rewrite elem_of_filteredImages, Hact.
    rewrite elem_of_singleton. split; [|tauto].
    intros [? [Hempty|?]]; [|done].
    by destruct (non_empty_singleton_L (C:=gset string) c). }
  split; [done|]. rewrite elem_of_derive_categories. split.
  - destruct filtered as [|image filtered'] eqn:Hf; [done|]. intros _.
    exists image. apply Hin. left.
  - intros (image & Himg & Hc) Hnil.
    assert (image ∈ filtered) as Hf by by apply Hin.
    rewrite Hnil in Hf. by apply not_elem_of_nil in Hf.
Qed.

Lemma applyFiltersAndSort_single_filter_witness :
  activeFilters (state cats_only_world) = {["cats"]} ∧
  (filteredImages
     (state (applyFiltersAndSort codeUnitCompare (Str "date") cats_only_world))
   ≠ []
   ↔ "cats" ∈ derive_categories (allImages (state cats_only_world))).
Proof.
  split; [reflexivity|].
  exact (proj2 (applyFiltersAndSort_single_filter
                  codeUnitCompare (Str "date") cats_only_world "cats" eq_refl)).
Defined.

(** X8. The sort is stable: images that tie under the comparator of the
    criterion stay in the order [allImages] has them. *)
Theorem applyFiltersAndSort_stable
    (localeCompare : string → string → Z) (sortCriteria : jsval) (w : World)
    (z : ImageRecord) :
  consistent_comparator localeCompare →
  filter (ties (compareFn localeCompare sortCriteria) z)
    (filteredImages (state (applyFiltersAndSort localeCompare sortCriteria w)))
  = filter (ties (compareFn localeCompare sortCriteria) z)
      (filter (λ image, activeFilters (state w) = ∅ ∨
                        category_of image ∈ activeFilters (state w))
         (allImages (state w))).
Proof.
  intros Hc. rewrite filteredImages_applyFiltersAndSort, <-apply_filters_spec.
  unfold apply_sort. destruct (truthy sortCriteria); [|done].
  by apply Array_sort_stable, compareFn_consistent.
Qed.

Lemma applyFiltersAndSort_stable_witness :
  consistent_comparator codeUnitCompare ∧
  filter (ties (compareFn codeUnitCompare (Str "date")) image_a)
    (filteredImages
       (state (applyFiltersAndSort codeUnitCompare (Str "date") ties_world)))
  = [image_a; image_c].
Proof.
  split; [exact codeUnitCompare_consistent|].
  rewrite (applyFiltersAndSort_stable codeUnitCompare (Str "date") ties_world
             image_a codeUnitCompare_consistent).
  reflexivity.
Defined.

(** X9. Only the last criterion counts: a call with criterion [c2] after a
    call with [c1] leaves the [filteredImages] that a call with [c2] alone
    leaves, the earlier order playing no part; each call hands its result to
    [displayImages], and neither touches the document, the console or the
    network. *)
Theorem applyFiltersAndSort_last_criterion
    (localeCompare : string → string → Z) (c1 c2 : jsval) (w : World) :
  let w1 := applyFiltersAndSort localeCompare c1 w in
  let w2 := applyFiltersAndSort localeCompare c2 w1 in
  filteredImages (state w2)
  = filteredImages (state (applyFiltersAndSort localeCompare c2 w)) ∧
  displayed w2
  = displayed w ++ [filteredImages (state w1); filteredImages (state w2)] ∧
  dom w2 = dom w ∧ console w2 = console w ∧ requests w2 = requests w.
Proof.
  repeat split.
  cbn [applyFiltersAndSort displayImages set_filteredImages
       displayed state allImages activeFilters filteredImages].
  by rewrite <-app_assoc.
Qed.

(** X10. When [allImages] is in the order of the criterion already,
    [applyFiltersAndSort] only filters: the images it keeps stay where they
    are. *)
Theorem applyFiltersAndSort_in_order
    (localeCompare : string → string → Z) (sortCriteria : jsval) (w : World) :
  StronglySorted (not_after (compareFn localeCompare sortCriteria))
    (allImages (state w)) →
  filteredImages (state (applyFiltersAndSort localeCompare sortCriteria w))
  = filter (λ image, activeFilters (state w) = ∅ ∨
                     category_of image ∈ activeFilters (state w))
      (allImages (state w)).
Proof.
  intros Hs. rewrite filteredImages_applyFiltersAndSort, apply_filters_spec.
  unfold apply_sort. destruct (truthy sortCriteria); [|done].
  by apply Array_sort_in_order, StronglySorted_Sorted,
    StronglySorted_filter_keep.
Qed.

Lemma applyFiltersAndSort_in_order_witness :
  StronglySorted (not_after (compareFn codeUnitCompare (Str "date")))
    (allImages (state recent_first_world)) ∧
  filteredImages
    (state (applyFiltersAndSort codeUnitCompare (Str "date") recent_first_world))
  = filter (λ image, activeFilters (state recent_first_world) = ∅ ∨
                     category_of image ∈ activeFilters (state recent_first_world))
      (allImages (state recent_first_world)).
Proof.
  assert (StronglySorted (not_after (compareFn codeUnitCompare (Str "date")))
            (allImages (state recent_first_world))) as Hs.
  { repeat constructor. unfold not_after. vm_compute. discriminate. }
  split; [exact Hs|].
  exact (applyFiltersAndSort_in_order codeUnitCompare (Str "date")
           recent_first_world Hs).
Defined.

(** X11. More active filters show more: for two states with the same
    [allImages], the first with a non-empty [activeFilters] that the second
    one's includes, every image of the first [filteredImages] is in the
    second, as often. *)
Theorem applyFiltersAndSort_more_filters
    (localeCompare : string → string → Z) (sortCriteria : jsval)
    (w1 w2 : World) :
  allImages (state w1) = allImages (state w2) →
  activeFilters (state w1) ≠ ∅ →
  activeFilters (state w1) ⊆ activeFilters (state w2) →
  filteredImages (state (applyFiltersAndSort localeCompare sortCriteria w1))
  ⊆+ filteredImages (state (applyFiltersAndSort localeCompare sortCriteria w2)).
Proof.
  intros Hall Hne Hsub.
  rewrite !filteredImages_applyFiltersAndSort, !apply_sort_Permutation.
  rewrite !apply_filters_spec, Hall.
  rewrite <-(list_filter_filter_l
               (λ image, activeFilters (state w1) = ∅ ∨
                         category_of image ∈ activeFilters (state w1))
               (λ image, activeFilters (state w2) = ∅ ∨
                         category_of image ∈ activeFilters (state w2))).
  - apply sublist_submseteq, sublist_filter.
  - intros image [?|Hin]; [done|]. right. by apply Hsub.
Qed.

Lemma applyFiltersAndSort_more_filters_witness :
  (allImages (state cats_only_world)
   = allImages (state both_world) ∧
   activeFilters (state cats_only_world) ≠ ∅ ∧
   activeFilters (state cats_only_world)
   ⊆ activeFilters (state both_world)) ∧
  filteredImages
    (state (applyFiltersAndSort codeUnitCompare (Str "date") cats_only_world))
  ⊆+ filteredImages
       (state (applyFiltersAndSort codeUnitCompare (Str "date")
                 both_world)).
Proof.
  assert (activeFilters (state cats_only_world) ≠ ∅) as Hne.
  { simpl. apply non_empty_singleton_L. }
  assert (activeFilters (state cats_only_world)
          ⊆ activeFilters (state both_world))
    as Hsub.
  { simpl. apply union_subseteq_l. }
  split; [by repeat split|].
  exact (applyFiltersAndSort_more_filters codeUnitCompare (Str "date")
           cats_only_world both_world
           eq_refl Hne Hsub).
Defined.

(** X12. Selecting every category is the same as selecting none: when
    [activeFilters] holds the category of every image, [filteredImages] is
    what it is with no filter at all. *)
Theorem applyFiltersAndSort_all_selected
    (localeCompare : string → string → Z) (sortCriteria : jsval)
    (w w0 : World) :
  allImages (state w0) = allImages (state w) →
  activeFilters (state w0) = ∅ →
  (∀ image, image ∈ allImages (state w) →
            category_of image ∈ activeFilters (state w)) →
  filteredImages (state (applyFiltersAndSort localeCompare sortCriteria w))
  = filteredImages (state (applyFiltersAndSort localeCompare sortCriteria w0)).
Proof.
  intros Hall Hempty Hevery.
  rewrite !filteredImages_applyFiltersAndSort, !apply_filters_spec, Hall.
  f_equal. rewrite !filter_all; [done|tauto|].
  intros image Hin. right. by apply Hevery.
Qed.

Lemma applyFiltersAndSort_all_selected_witness :
  (∀ image, image ∈ allImages (state both_world) →
            category_of image
            ∈ activeFilters (state both_world)) ∧
  filteredImages
    (state (applyFiltersAndSort codeUnitCompare (Str "date")
              both_world))
  = filteredImages
      (state (applyFiltersAndSort codeUnitCompare (Str "date") scenario_world)).
Proof.
  assert (∀ image,
            image ∈ allImages (state both_world) →
            category_of image
            ∈ activeFilters (state both_world))
    as Hevery.
  { intros image Hin. simpl in Hin.
    apply elem_of_cons in Hin as [->|Hin];
      [|apply list_elem_of_singleton in Hin as ->]; simpl.
    - apply elem_of_union_l. by apply elem_of_singleton.
    - apply elem_of_union_r. by apply elem_of_singleton. }
  split; [exact Hevery|].
  exact (applyFiltersAndSort_all_selected codeUnitCompare (Str "date")
           both_world scenario_world
           eq_refl eq_refl Hevery).
Defined.

(** X15. A filter never reorders what stays: with a consistent
    [localeCompare], the [filteredImages] under a set of active filters is
    the [filteredImages] of the unfiltered state, sorted by the same
    criterion, with the images of the other categories taken out. *)
Theorem applyFiltersAndSort_filter_of_sorted
    (localeCompare : string → string → Z) (sortCriteria : jsval)
    (w w0 : World) :
  consistent_comparator localeCompare →
  allImages (state w0) = allImages (state w) →
  activeFilters (state w0) = ∅ →
  filteredImages (state (applyFiltersAndSort localeCompare sortCriteria w))
  = filter (λ image, activeFilters (state w) = ∅ ∨
                     category_of image ∈ activeFilters (state w))
      (filteredImages (state (applyFiltersAndSort localeCompare sortCriteria w0))).
Proof.
  intros Hc Hall Hempty.
  rewrite !filteredImages_applyFiltersAndSort, !apply_filters_spec, Hall.
  rewrite (filter_all (λ image, activeFilters (state w0) = ∅ ∨
                                category_of image ∈ activeFilters (state w0)))
    by tauto.
  unfold apply_sort. destruct (truthy sortCriteria); [|done].
  symmetry. by apply filter_Array_sort, compareFn_consistent.
Qed.

Lemma applyFiltersAndSort_filter_of_sorted_witness :
  consistent_comparator codeUnitCompare ∧
  filteredImages
    (state (applyFiltersAndSort codeUnitCompare (Str "date") cats_only_world))
  = filter (λ image, activeFilters (state cats_only_world) = ∅ ∨
                     category_of image ∈ activeFilters (state cats_only_world))
      (filteredImages
         (state (applyFiltersAndSort codeUnitCompare (Str "date") scenario_world))).
Proof.
  split; [exact codeUnitCompare_consistent|].
  exact (applyFiltersAndSort_filter_of_sorted codeUnitCompare (Str "date")
           cats_only_world scenario_world codeUnitCompare_consistent
           eq_refl eq_refl).
Defined.

(** X16. Under a truthy criterion and a consistent [localeCompare] the
    result is the only one a stable sort can give: any arrangement of the
    kept images that is in the order of the comparator and keeps the order
    within each class of ties is [filteredImages]. *)
Theorem applyFiltersAndSort_unique
    (localeCompare : string → string → Z) (sortCriteria : jsval) (w : World)
    (l : list ImageRecord) :
  consistent_comparator localeCompare →
  truthy sortCriteria = true →
  l ≡ₚ apply_filters (state w) →
  StronglySorted (not_after (compareFn localeCompare sortCriteria)) l →
  (∀ z, filter (ties (compareFn localeCompare sortCriteria) z) l
        = filter (ties (compareFn localeCompare sortCriteria) z)
            (apply_filters (state w))) →
  l = filteredImages (state (applyFiltersAndSort localeCompare sortCriteria w)).
Proof.
  intros Hc Ht Hperm Hsorted Hties.
  pose proof (compareFn_consistent localeCompare sortCriteria Hc) as Hcmp.
  rewrite filteredImages_applyFiltersAndSort. unfold apply_sort. rewrite Ht.
  apply (stable_sorted_unique (compareFn localeCompare sortCriteria)); [done..| | |].
  - by apply Array_sort_sorted.
  - by rewrite Array_sort_Permutation.
  - intros z. by rewrite Array_sort_stable.
Qed.

Lemma applyFiltersAndSort_unique_witness :
  (consistent_comparator codeUnitCompare ∧
   truthy (Str "date") = true ∧
   [image_b; image_a] ≡ₚ apply_filters (state scenario_world) ∧
   StronglySorted (not_after (compareFn codeUnitCompare (Str "date")))
     [image_b; image_a]) ∧
  [image_b; image_a]
  = filteredImages
      (state (applyFiltersAndSort codeUnitCompare (Str "date") scenario_world)).
Proof.
  assert ([image_b; image_a] ≡ₚ apply_filters (state scenario_world)) as Hperm.
  { apply Permutation_swap. }
  assert (StronglySorted (not_after (compareFn codeUnitCompare (Str "date")))
            [image_b; image_a]) as Hs.
  { repeat constructor. unfold not_after. vm_compute. discriminate. }
  split; [by repeat split; try apply codeUnitCompare_consistent|].
  apply (applyFiltersAndSort_unique codeUnitCompare (Str "date") scenario_world
           [image_b; image_a] codeUnitCompare_consistent eq_refl Hperm Hs).
  intros z. change (apply_filters (state scenario_world)) with [image_a; image_b].
  rewrite !filter_cons, !filter_nil.
  destruct (decide (ties (compareFn codeUnitCompare (Str "date")) z image_b))
    as [[Hzb Hbz]|], (decide (ties (compareFn codeUnitCompare (Str "date")) z image_a))
    as [[Hza Haz]|]; try done.
  unfold compareFn in *. simpl in *. lia.
Defined.

(** ** The handlers *)

(** X13. [handleSort] throws exactly when the select is not in the
    document, before anything is changed; otherwise it sorts by the value
    of the select and leaves the document as it is, so that a second
    [handleSort] runs as well and leaves the same [filteredImages]. *)
Theorem handleSort_again
    (localeCompare : string → string → Z) (w : World) :
  (handleSort localeCompare w = None ↔ sort_select (dom w) = None) ∧
  (∀ w1, handleSort localeCompare w = Some w1 →
     dom w1 = dom w ∧
     (∃ criteria, sort_select (dom w) = Some criteria ∧
        filteredImages (state w1)
        = apply_sort localeCompare (Str criteria) (apply_filters (state w))) ∧
     ∃ w2, handleSort localeCompare w1 = Some w2 ∧
           filteredImages (state w2) = filteredImages (state w1)).
Proof.
  unfold handleSort. destruct (sort_select (dom w)) as [criteria|] eqn:Hsel.
  - split; [done|]. intros w1 [= <-]. split; [done|]. split; [by eauto|].
    cbn [applyFiltersAndSort displayImages set_filteredImages dom].
    rewrite Hsel. by eexists.
  - split; [done|]. by intros w1 [=].
Qed.

Lemma handleSort_again_witness :
  handleSort codeUnitCompare scenario_world
  = Some (applyFiltersAndSort codeUnitCompare (Str "date") scenario_world) ∧
  dom (applyFiltersAndSort codeUnitCompare (Str "date") scenario_world)
  = dom scenario_world.
Proof.
  split; [reflexivity|].
  exact (proj1 (proj2 (handleSort_again codeUnitCompare scenario_world)
                  _ eq_refl)).
Defined.

(** X14. The page-load handler renders the buttons from the images the
    state holds before the fetch, then requests '/api/images' once, with no
    category; what comes back is dropped: the state is as before and
    [displayImages] is not called. *)
Theorem on_DOMContentLoaded_effects
    (fetch : string → FetchOutcome) (w : World) :
  let w' := on_DOMContentLoaded fetch w in
  requests w' = requests w ++ ["/api/images"] ∧
  state w' = state w ∧
  displayed w' = displayed w ∧
  category_filters (dom w')
  = (λ _, join_empty (button <$> derive_categories (allImages (state w))))
      <$> category_filters (dom w).
Proof.
  unfold on_DOMContentLoaded, loadImages, loadCategories.
  change (request_url Undefined) with "/api/images".
  destruct (fetch "/api/images") as [|response];
    [|destruct (body_json response)];
    by destruct (category_filters (dom w)) eqn:Hdom; simpl; rewrite ?Hdom.
Qed.

(** ** More on the image fetcher *)

Lemma app_singleton_neq {A : Type} (l : list A) (x : A) : l ++ [x] ≠ l.
Proof.
  intros H. apply (f_equal length) in H. rewrite length_app in H. simpl in H. lia.
Qed.

(** X17. [loadImages] returns [undefined] exactly when it logged an error,
    which is exactly when the fetch failed or the body did not parse; a body
    that parses, the JSON [null] included, is returned as it is and leaves
    the console alone. *)
Theorem loadImages_undefined_iff_logged
    (fetch : string → FetchOutcome) (category : jsval) (w : World) :
  let r := loadImages fetch category w in
  (r.2 = None ↔ console r.1 ≠ console w) ∧
  (r.2 = None ↔
   fetch (request_url category) = NetworkFailure ∨
   ∃ response, fetch (request_url category) = Responded response ∧
               body_json response = None) ∧
  (length (console r.1) ≤ S (length (console w)))%nat.
Proof.
  unfold loadImages.
  destruct (fetch (request_url category)) as [|response] eqn:Hfetch;
    [|destruct (body_json response) as [images|] eqn:Hbody]; simpl.
  - split; [|split].
    + split; [intros _; apply app_singleton_neq|done].
    + split; [by left|done].
    + rewrite length_app. simpl. lia.
  - split; [|split].
    + split; [done|]. by intros [].
    + split; [done|]. intros [[=]|(response' & [= <-] & Hnone)]. congruence.
    + lia.
  - split; [|split].
    + split; [intros _; apply app_singleton_neq|done].
    + split; [|done]. intros _. right. by exists response.
    + rewrite length_app. simpl. lia.
Qed.
